(** * neh/https: connection governors, certificate host names, cooperative
      reads and the server's reply guard

    A shallow embedding of the parts of [library/neh/https.cpp] that carry
    the arithmetic and the state machines of the HTTPS transport:

    - [TInputConnections]: the keep-alive timeout of idle accepted sockets;
    - [MatchDomainName] / [CheckCertHostname]: certificate name matching;
    - [TConnCache]: [Connect], [Release], [SuggestPurgeCache], [PurgeCache];
    - [TContBIO::BIOReadMethod]: the cancellable read loop;
    - [TServer::TRequest], [TServer::TFail]: the reply-or-503 guard.

    Integers are modelled at the width the code gives them on an LP64
    target: [size_t] and [ui64] are 64 bits and wrap, [unsigned] is 32 bits,
    [TAtomicBase] is a signed 64-bit value. *)

From Stdlib Require Import ZArith Lia List Bool String Ascii.
From stdpp Require Import base option gmap.
From Equations Require Import Equations.

Import ListNotations.
Local Open Scope Z_scope.

(** ** Machine integers *)

Module Int.

Definition size_max : Z := 2 ^ 64 - 1.

(** Conversion to [size_t] (also the result of every [size_t] operation). *)
Definition to_size (z : Z) : Z := z mod 2 ^ 64.

(** Conversion to [unsigned]. *)
Definition to_unsigned (z : Z) : Z := z mod 2 ^ 32.


Definition is_size (z : Z) : Prop := 0 <= z < 2 ^ 64.
Definition is_unsigned (z : Z) : Prop := 0 <= z < 2 ^ 32.

(** Unsigned division; a zero divisor is undefined behaviour in the source
    and has no result here. *)
Definition size_div (a b : Z) : option Z :=
  if b =? 0 then None else Some (a / b).

End Int.

(** ** File-descriptor limits *)

Record TFdLimits := MkFdLimits { Soft : Z; Hard : Z }.

Module FdLimits.

(** Modelled from the spec: [NHttp::TFdLimits] is declared in
    [http_common.h], which is not among the sources.  The data model gives
    [exceed(current, limit) = max(0, current - limit)] on [size_t]. *)
Definition ExceedLimit (val limit : Z) : Z :=
  if limit <? val then val - limit else 0.

(** Modelled from the spec: [delta() = hard - soft], a [size_t]
    subtraction. *)
Definition Delta (l : TFdLimits) : Z := Int.to_size (Hard l - Soft l).

(** The limits a setter accepts: both are [size_t] and [hard > soft]
    ([Y_VERIFY] in [SetHttpInputConnectionsLimits] and
    [SetHttpOutputConnectionsLimits]). *)
Definition wf (l : TFdLimits) : Prop :=
  0 <= Soft l /\ Soft l < Hard l /\ Hard l <= Int.size_max.

(** The constructor's defaults. *)
Definition default : TFdLimits := MkFdLimits 10000 15000.

End FdLimits.

(** ** The input governor *)

Module InputConnections.

Record TInputConnections := MkInputConnections {
  Limits : TFdLimits;
  Counter : Z;                          (* TAtomicCounter *)
  MaxUnusedConnKeepaliveTimeout : Z;    (* volatile unsigned, seconds *)
  MinUnusedConnKeepaliveTimeout : Z     (* volatile unsigned, seconds *)
}.

(** The state the constructor builds. *)
Definition init : TInputConnections :=
  MkInputConnections FdLimits.default 0 120 10.

Definition ExceedSoftLimit (ic : TInputConnections) : Z :=
  FdLimits.ExceedLimit (Int.to_size (Counter ic)) (Soft (Limits ic)).

Definition ExceedHardLimit (ic : TInputConnections) : Z :=
  FdLimits.ExceedLimit (Int.to_size (Counter ic)) (Hard (Limits ic)).

Definition DeltaLimit (ic : TInputConnections) : Z :=
  FdLimits.Delta (Limits ic).

(** [UnusedConnKeepaliveTimeout]: [None] stands for the division by a
    [d + 1] that wrapped to zero. *)
Definition UnusedConnKeepaliveTimeout (ic : TInputConnections) : option Z :=
  let e := ExceedSoftLimit ic in
  if e =? 0 then Some (MaxUnusedConnKeepaliveTimeout ic)
  else
    let d := DeltaLimit ic in
    let leftAvailableFd := FdLimits.ExceedLimit d e in
    match Int.size_div
            (Int.to_size (MaxUnusedConnKeepaliveTimeout ic * leftAvailableFd))
            (Int.to_size (d + 1)) with
    | None => None
    | Some q =>
        let r := Int.to_unsigned q in
        Some (Z.max r (MinUnusedConnKeepaliveTimeout ic))
    end.

Definition SetFdLimits (soft hard : Z) (ic : TInputConnections)
  : TInputConnections :=
  MkInputConnections (MkFdLimits soft hard) (Counter ic)
    (MaxUnusedConnKeepaliveTimeout ic) (MinUnusedConnKeepaliveTimeout ic).

(** The states of the governor: limits a setter accepts, a counter of live
    sockets, and two [unsigned] bounds. *)
Definition wf (ic : TInputConnections) : Prop :=
  FdLimits.wf (Limits ic) /\
  0 <= Counter ic < 2 ^ 63 /\
  Int.is_unsigned (MaxUnusedConnKeepaliveTimeout ic) /\
  Int.is_unsigned (MinUnusedConnKeepaliveTimeout ic).

(** The timeout as the specification words it, over the integers. *)
Definition spec_timeout (ic : TInputConnections) : Z :=
  let counter := Counter ic in
  let soft := Soft (Limits ic) in
  let hard := Hard (Limits ic) in
  if counter <=? soft then MaxUnusedConnKeepaliveTimeout ic
  else
    let e := counter - soft in
    let d := hard - soft in
    let left := Z.max 0 (d - e) in
    Z.max (MinUnusedConnKeepaliveTimeout ic)
          (MaxUnusedConnKeepaliveTimeout ic * left / (d + 1)).

(** The arithmetic of the timeout stays inside [size_t]: [d + 1] does not
    wrap to zero and the product with the descriptors left does not wrap. *)
Definition no_overflow (ic : TInputConnections) : Prop :=
  let soft := Soft (Limits ic) in
  let hard := Hard (Limits ic) in
  let left := Z.max 0 ((hard - soft) - (Counter ic - soft)) in
  hard - soft < Int.size_max /\
  MaxUnusedConnKeepaliveTimeout ic * left <= Int.size_max.

End InputConnections.

(** ** Certificate host names *)

Inductive GENERAL_NAME :=
| GEN_DNS (dNSName : string)
| GEN_OTHER.                    (* any other [name->type] *)

(** What the matcher reads of a certificate: the subject-alt-name stack, when
    the extension is there, and the subject's common name, when it has one. *)
Record X509 := MkX509 {
  subject_alt_name : option (list GENERAL_NAME);
  commonName : option string
}.

Inductive EMatchResult := MATCH_FOUND | NO_MATCH | NO_EXTENSION | ERROR.

Module HostName.

Local Open Scope string_scope.

(** Modelled from the spec: [TString::to_lower] belongs to [util], which is
    not among the sources.  Matching ignores ASCII case, so [to_lower] is
    taken to give the text with every character in [A-Z] replaced by its
    counterpart in [a-z] and every other character kept. *)
Definition AsciiToLower (c : ascii) : ascii :=
  let n := N_of_ascii c in
  if ((65 <=? n) && (n <=? 90))%N then ascii_of_N (n + 32) else c.

Fixpoint to_lower (s : string) : string :=
  match s with
  | EmptyString => EmptyString
  | String c s' => String (AsciiToLower c) (to_lower s')
  end.

(** Modelled from the spec: [TStringBuf::NextTok(delim)] belongs to [util].
    It returns the text before the first [delim] and leaves in the buffer
    what follows that [delim]; without a [delim] it returns the whole text
    and leaves the buffer empty.  The pair is (token, buffer afterwards). *)
Fixpoint NextTok (delim : ascii) (s : string) : string * string :=
  match s with
  | EmptyString => (EmptyString, EmptyString)
  | String c s' =>
      if Ascii.eqb c delim then (EmptyString, s')
      else let (tok, rest) := NextTok delim s' in (String c tok, rest)
  end.

Definition EqualNoCase (a b : string) : bool :=
  Nat.eqb (String.length a) (String.length b)
  && String.eqb (to_lower a) (to_lower b).

Definition MatchDomainName (tmpl name : string) : bool :=
  let (tmplFirst, tmplRest) := NextTok "." tmpl in
  if String.eqb tmplFirst "*" then
    let (_, name') := NextTok "." name in
    EqualNoCase tmplRest name'
  else EqualNoCase tmpl name.

Definition MatchCertAltNames (cert : X509) (hostname : string) : EMatchResult :=
  match subject_alt_name cert with
  | None => NO_EXTENSION
  | Some names =>
      if existsb (fun name =>
                    match name with
                    | GEN_DNS dnsName => MatchDomainName dnsName hostname
                    | GEN_OTHER => false
                    end) names
      then MATCH_FOUND else NO_MATCH
  end.

Definition MatchCertCommonName (cert : X509) (hostname : string) : EMatchResult :=
  match commonName cert with
  | None => ERROR
  | Some cn => if MatchDomainName cn hostname then MATCH_FOUND else NO_MATCH
  end.

Definition CheckCertHostname (cert : X509) (hostname : string) : bool :=
  match MatchCertAltNames cert hostname with
  | MATCH_FOUND => true
  | NO_EXTENSION =>
      match MatchCertCommonName cert hostname with
      | MATCH_FOUND => true
      | _ => false
      end
  | _ => false
  end.

(** *** The matcher as the specification words it *)







Definition contains_dot (s : string) : bool :=
  existsb (fun c => Ascii.eqb c ".") (list_ascii_of_string s).

End HostName.

(** ** The matcher, whatever [to_lower] returns *)

(** [EqualNoCase] compares what two calls of [TString::to_lower] return, and
    that member belongs to [util], which is not among the sources.  Here the
    value of [s.ToString().to_lower()] and [==] on two such values are
    parameters of the matcher. *)
Module Matching.

Local Open Scope string_scope.

Section Over.

Variable R : Type.
Variable to_lower_value : string -> R.
Variable equal : R -> R -> bool.

Definition EqualNoCase (a b : string) : bool :=
  Nat.eqb (String.length a) (String.length b)
  && equal (to_lower_value a) (to_lower_value b).

Definition MatchDomainName (tmpl name : string) : bool :=
  let (tmplFirst, tmplRest) := HostName.NextTok "." tmpl in
  if String.eqb tmplFirst "*" then
    let (_, name') := HostName.NextTok "." name in
    EqualNoCase tmplRest name'
  else EqualNoCase tmpl name.

End Over.

Arguments EqualNoCase {R} to_lower_value equal a b.
Arguments MatchDomainName {R} to_lower_value equal tmpl name.

(** *** What the specification means by ignoring ASCII case *)




(** *** The two things [to_lower] may return *)





End Matching.

(** ** The cache of outgoing connections *)

(** A socket holder: the descriptor, and what [SocketNotClosedByOtherSide]
    answers for it. *)
Record TSslSocketHolder := MkSocket {
  sock_fd : Z;
  NotClosedByOtherSide : bool
}.

Record TResolvedHost := MkHost { Id : Z }.

(** [TAutoLockFreeQueue]: [Enqueue] at the back, [Dequeue] from the front. *)
Abbreviation TConnList := (list TSslSocketHolder).

Record TConnection := MkConnection {
  Socket : TSslSocketHolder;
  ReUsed : bool;
  Host : TResolvedHost
}.

(** [TError]: the message, and the type when the constructor is given one. *)
Inductive TErrorType := UnknownType.
Record TError := MkError { err_msg : string; err_type : option TErrorType }.

Record TConnCache := MkConnCache {
  Limits : TFdLimits;
  ActiveSockets : Z;                (* TAtomicCounter *)
  CachedSockets : Z;                (* TAtomicCounter *)
  Lst_ : gmap Z TConnList;          (* TLockFreeSequence<TConnList> *)
  InPurging_ : bool;
  MaxConnId_ : Z;
  Shutdown_ : bool
}.

(** What a run does to the world outside the cache, in order. *)
Inductive Event :=
| EvCreateJob (host : TResolvedHost) (s : option TSslSocketHolder)
      (* c->Executor()->Create(TConnector(host[, s]), "https-con") *)
| EvScheduleJob (host : TResolvedHost)
      (* JobQueue()->Schedule(TConnector(host)) *)
| EvSocket (host : TResolvedHost)           (* c->Socket( *ait) *)
| EvConnectD (checkpoint_ms : Z)            (* c->ConnectD(.., now + checkpoint) *)
| EvPollD (checkpoint_ms : Z)               (* c->PollD(.., now + checkpoint) *)
| EvPrepareSocket (s : TSslSocketHolder)    (* SetNoDelay *)
| EvSignalPurge                             (* CondPurge_.Signal() *)
| EvSleep (ms : Z).                         (* Sleep(TDuration::MilliSeconds(ms)) *)

(** What [Connect] is given besides the cache: whether it has a coroutine
    and an error slot, the socket [c->Socket] hands out, the results of
    [ConnectD] and of the successive [PollD] calls, and what the other
    coroutines (the connector jobs among them) do to the cache while this
    one is suspended: suspension [0] is [ConnectD], suspension [S k] the
    [k]-th [PollD]. *)
Record ConnectEnv := MkConnectEnv {
  has_cont : bool;
  has_error : bool;
  new_socket : TSslSocketHolder;
  ConnectD_ret : Z;
  PollD_ret : nat -> Z;
  others : nat -> TConnCache -> TConnCache
}.

Module ConnCache.

Definition ETIMEDOUT : Z := 110.
Definition EINTR : Z := 4.

Definition Get (lst : gmap Z TConnList) (i : Z) : TConnList :=
  default [] (lst !! i).

Definition ConnList (cc : TConnCache) (addr : TResolvedHost) : TConnList :=
  Get (Lst_ cc) (Id addr).

Definition TotalSockets (cc : TConnCache) : Z :=
  Int.to_size (ActiveSockets cc + CachedSockets cc).

Definition ExceedSoftLimit (cc : TConnCache) : Z :=
  FdLimits.ExceedLimit (TotalSockets cc) (Soft (Limits cc)).

Definition ExceedHardLimit (cc : TConnCache) : Z :=
  FdLimits.ExceedLimit (TotalSockets cc) (Hard (Limits cc)).

Definition set_counters (active cached : Z) (cc : TConnCache) : TConnCache :=
  MkConnCache (Limits cc) active cached (Lst_ cc) (InPurging_ cc)
    (MaxConnId_ cc) (Shutdown_ cc).

Definition set_queue (i : Z) (q : TConnList) (cc : TConnCache) : TConnCache :=
  MkConnCache (Limits cc) (ActiveSockets cc) (CachedSockets cc)
    (<[i := q]> (Lst_ cc)) (InPurging_ cc) (MaxConnId_ cc) (Shutdown_ cc).

Definition set_purging (b : bool) (cc : TConnCache) : TConnCache :=
  MkConnCache (Limits cc) (ActiveSockets cc) (CachedSockets cc)
    (Lst_ cc) b (MaxConnId_ cc) (Shutdown_ cc).

Definition set_max_id (m : Z) (cc : TConnCache) : TConnCache :=
  MkConnCache (Limits cc) (ActiveSockets cc) (CachedSockets cc)
    (Lst_ cc) (InPurging_ cc) m (Shutdown_ cc).

Definition SetFdLimits (soft hard : Z) (cc : TConnCache) : TConnCache :=
  MkConnCache (MkFdLimits soft hard) (ActiveSockets cc) (CachedSockets cc)
    (Lst_ cc) (InPurging_ cc) (MaxConnId_ cc) (Shutdown_ cc).

(** The error [Connect] stores in its slot, when it has one. *)
Definition put_error (env : ConnectEnv) (e : TError) : option TError :=
  if has_error env then Some e else None.

Definition OutputLimit : TError :=
  MkError "neh::https output connections limit reached"%string (Some UnknownType).

Definition DirectFailed : TError := MkError "directo connection failed"%string None.

Definition CanNotConnect (msgAddr : string) : TError :=
  MkError ("can not connect to " ++ msgAddr)%string None.

(** [while (connList.Dequeue(&res))]: every dequeue decrements the cached
    counter; the first socket still open ends the loop.  The result is that
    socket, if any, what is left of the queue, and the counter. *)
Fixpoint drain (q : TConnList) (cached : Z)
  : option TSslSocketHolder * TConnList * Z :=
  match q with
  | [] => (None, [], cached)
  | res :: q' =>
      if NotClosedByOtherSide res then (Some res, q', cached - 1)
      else drain q' (cached - 1)
  end.

(** How the connect loop ends: with a socket to use, or giving up. *)
Inductive LoopEnd :=
| Connected (res : TSslSocketHolder)
| GaveUp.

(** [connList.Dequeue(&res2)] followed by [CachedSockets.Dec()]. *)
Definition Dequeue (addr : TResolvedHost) (cc : TConnCache)
  : option (TSslSocketHolder * TConnCache) :=
  match ConnList cc addr with
  | [] => None
  | res2 :: q' =>
      Some (res2, set_queue (Id addr) q'
                    (set_counters (ActiveSockets cc) (CachedSockets cc - 1) cc))
  end.

(** The [do ... while (ret = c->PollD(..))] loop of [Connect].  Times are
    milliseconds after [now]; the deadline is at 10000.  [k] counts the
    [PollD] calls made so far. *)
Fixpoint connect_loop (fuel : nat) (env : ConnectEnv) (addr : TResolvedHost)
    (k : nat) (ret delay checkpoint : Z) (res : TSslSocketHolder)
    (cc : TConnCache) (evs : list Event)
  : option (LoopEnd * TConnCache * list Event) :=
  match fuel with
  | O => None
  | S fuel' =>
      if ((ret =? ETIMEDOUT) || (ret =? EINTR)) && (checkpoint <? 10000) then
        let delay' := delay + delay in
        let checkpoint' := Z.min 10000 delay' in
        let poll cc1 :=
          let evs' := evs ++ [EvPollD checkpoint'] in
          let cc2 := others env (S k) cc1 in
          let ret' := PollD_ret env k in
          if ret' =? 0 then Some (Connected res, cc2, evs')
          else connect_loop fuel' env addr (S k) ret' delay' checkpoint' res
                 cc2 evs' in
        match Dequeue addr cc with
        | Some (res2, cc1) =>
            if NotClosedByOtherSide res2 then
              Some (Connected res2, cc1, evs ++ [EvCreateJob addr (Some res)])
            else poll cc1
        | None => poll cc
        end
      else Some (GaveUp, cc, evs)
  end.

(** The delay doubles from 8 ms and the loop gives up once the checkpoint
    has reached the deadline, so twelve rounds are all it can make. *)
Definition connect_rounds : nat := 12.

(** [Connect]: the connection or [nullptr], the error stored, the cache
    afterwards and what was done.  [None] only if the loop outran
    [connect_rounds]. *)
Definition Connect (env : ConnectEnv) (msgAddr : string) (addr : TResolvedHost)
    (cc : TConnCache)
  : option (option TConnection * option TError * TConnCache * list Event) :=
  if negb (ExceedHardLimit cc =? 0) then
    Some (None, put_error env OutputLimit, cc, [])
  else
    let '(found, q', cached') := drain (ConnList cc addr) (CachedSockets cc) in
    let cc1 :=
      match ConnList cc addr with
      | [] => cc
      | _ => set_queue (Id addr) q' (set_counters (ActiveSockets cc) cached' cc)
      end in
    match found with
    | Some res =>
        let evs :=
          if (length q' =? 0)%nat then
            [if has_cont env then EvCreateJob addr None else EvScheduleJob addr]
          else [] in
        Some (Some (MkConnection res true addr), None,
              set_counters (ActiveSockets cc1 + 1) (CachedSockets cc1) cc1, evs)
    | None =>
        if negb (has_cont env) then
          Some (None, put_error env DirectFailed, cc1, [])
        else
          let res := new_socket env in
          let evs := [EvCreateJob addr None; EvSocket addr; EvConnectD 8] in
          let finish (e : LoopEnd) cc2 evs :=
            match e with
            | Connected res' =>
                (Some (MkConnection res' false addr), None,
                 set_counters (ActiveSockets cc2 + 1) (CachedSockets cc2) cc2,
                 evs ++ [EvPrepareSocket res'])
            | GaveUp => (None, put_error env (CanNotConnect msgAddr), cc2, evs)
            end in
          let cc2 := others env O cc1 in
          let ret := ConnectD_ret env in
          if ret =? 0 then Some (finish (Connected res) cc2 evs)
          else
            match connect_loop connect_rounds env addr 0 ret 8 8 res cc2 evs with
            | None => None
            | Some (e, cc3, evs') => Some (finish e cc3 evs')
            end
    end.

(** [SuggestPurgeCache]: takes the purge lock and, when the cache is judged
    worth purging, signals the purger and keeps the lock for it.  [None]
    stands for a division by zero. *)
Definition SuggestPurgeCache (cc : TConnCache)
  : option (TConnCache * list Event) :=
  if InPurging_ cc then Some (cc, [])
  else
    if Z.shiftr (Z.min (MaxConnId_ cc) 1024) 4 <? Int.to_size (CachedSockets cc)
    then
      match Int.size_div (Int.to_size (Z.shiftl (ActiveSockets cc + 1) 8))
              (Int.to_size (FdLimits.Delta (Limits cc) + 1)) with
      | None => None
      | Some closenessToHardLimit256 =>
          if ActiveSockets cc + 1 =? 0 then None
          else
            let cacheUselessness256 :=
              Int.to_size
                (Z.quot (Z.shiftl (CachedSockets cc + 1) 8)
                        (ActiveSockets cc + 1)) in
            if 256 <=? Int.to_size (closenessToHardLimit256 + cacheUselessness256)
            then Some (set_purging true cc, [EvSignalPurge])
            else Some (cc, [])
      end
    else Some (cc, []).

(** [Release]: the cache afterwards, whether the socket went into it (the
    connection's socket reference is then empty), and what was done. *)
Definition Release (conn : TConnection) (cc : TConnCache)
  : option (TConnCache * bool * list Event) :=
  let (cc1, taken) :=
    if ExceedHardLimit cc =? 0 then
      let i := Id (Host conn) in
      let cc' := set_max_id (Z.max (MaxConnId_ cc) i) cc in
      (set_queue i (ConnList cc' (Host conn) ++ [Socket conn])
         (set_counters (ActiveSockets cc' - 1) (CachedSockets cc' + 1) cc'),
       true)
    else (cc, false) in
  if negb (CachedSockets cc1 =? 0) && negb (ExceedSoftLimit cc1 =? 0) then
    match SuggestPurgeCache cc1 with
    | None => None
    | Some (cc2, evs) => Some (cc2, taken, evs)
    end
  else Some (cc1, taken, []).

(** [~TConnection]: a connection that still holds its socket gives its
    place among the active ones back. *)
Definition DestroyConnection (taken : bool) (cc : TConnCache) : TConnCache :=
  if taken then cc
  else set_counters (ActiveSockets cc - 1) (CachedSockets cc) cc.

(** *** The purger *)

(** The purger's running state: the cached counter, the sockets processed
    so far (a [ui64]), and the sleeps taken. *)
Record PurgeSt := MkPurgeSt {
  p_cached : Z;
  p_processed : Z;
  p_events : list Event
}.

Definition OnPurgeSocket (st : PurgeSt) : PurgeSt :=
  MkPurgeSt (p_cached st - 1)
    (Int.to_size (p_processed st + 1))
    (if Z.land (p_processed st) 63 =? 0 then p_events st ++ [EvSleep 10]
     else p_events st).

(** [while (purgeCounter-- && tc.Dequeue(&tmp)) OnPurgeSocket(processed)] *)
Fixpoint purge_dequeue (purgeCounter : nat) (q : TConnList) (st : PurgeSt)
  : TConnList * PurgeSt :=
  match purgeCounter, q with
  | S n, _ :: q' => purge_dequeue n q' (OnPurgeSocket st)
  | _, _ => (q, st)
  end.

(** The body of the purge loop for one queue. *)
Definition purge_queue (frac256 : Z) (q : TConnList) (st : PurgeSt)
  : TConnList * PurgeSt :=
  let qsize := Z.of_nat (length q) in
  if qsize =? 0 then (q, st)
  else
    let purgeCounter := Z.shiftr (Int.to_size (qsize * frac256)) 8 in
    if purgeCounter =? 0 then
      if qsize <=? 2 then
        match q with
        | res :: q' =>
            if NotClosedByOtherSide res then (q' ++ [res], st)
            else (q', OnPurgeSocket st)
        | [] => (q, st)
        end
      else purge_dequeue 1 q st
    else purge_dequeue (Z.to_nat purgeCounter) q st.

(** The share of the cache to purge, in 256ths. *)
Definition frac256 (cc : TConnCache) : option Z :=
  match Int.size_div (Int.to_size (Z.shiftl (ExceedSoftLimit cc) 8))
          (Int.to_size (CachedSockets cc + 1)) with
  | None => None
  | Some share => Some (Z.min (Z.max (256 / 32) share) 256)
  end.

(** [for (size_t i = 0; i < MaxConnId_ && !Shutdown_; i++)], over the
    indices it visits. *)
Fixpoint purge_loop (frac : Z) (ids : list Z) (lst : gmap Z TConnList)
    (st : PurgeSt) : gmap Z TConnList * PurgeSt :=
  match ids with
  | [] => (lst, st)
  | i :: ids' =>
      match Get lst i with
      | [] => purge_loop frac ids' lst st
      | q =>
          let (q', st') := purge_queue frac q st in
          purge_loop frac ids' (<[i := q']> lst) st'
      end
  end.

Definition visited (cc : TConnCache) : list Z :=
  if Shutdown_ cc then []
  else map Z.of_nat (seq 0 (Z.to_nat (MaxConnId_ cc))).

Definition PurgeCache (cc : TConnCache) : option (TConnCache * list Event) :=
  match frac256 cc with
  | None => None
  | Some frac =>
      let (lst, st) :=
        purge_loop frac (visited cc) (Lst_ cc)
          (MkPurgeSt (CachedSockets cc) 0 []) in
      Some (MkConnCache (Limits cc) (ActiveSockets cc) (p_cached st) lst
              (InPurging_ cc) (MaxConnId_ cc) (Shutdown_ cc),
            p_events st)
  end.



(** The states of the cache between operations: the limits are ones a
    setter accepts, and the counters and the queues hold sockets, each with
    a descriptor of its own, which is an [int]. *)
Definition wf (cc : TConnCache) : Prop :=
  FdLimits.wf (Limits cc) /\
  0 <= ActiveSockets cc < 2 ^ 31 /\
  0 <= CachedSockets cc < 2 ^ 31 /\
  0 <= MaxConnId_ cc /\
  forall i, Z.of_nat (length (Get (Lst_ cc) i)) < 2 ^ 31.

(** The socket at the front of a queue has been closed by its peer. *)
Definition head_closed (q : TConnList) : bool :=
  match q with
  | res :: _ => negb (NotClosedByOtherSide res)
  | [] => false
  end.

End ConnCache.

(** ** The cooperative BIO *)

Record TContIOStatus := MkIOStatus { Status : Z; Processed : Z }.

Record TContBIO := MkContBIO {
  Timeout_ : Z;        (* TDuration, in microseconds *)
  S_ : Z;
  Canceled_ : bool;    (* whether a cancellation flag is attached *)
  Cont_ : bool         (* whether a coroutine is bound *)
}.

(** One turn of a read loop as the outside world answers it: the value of
    the cancellation flag when the loop looks at it, and the outcome of the
    read that follows. *)
Record Turn := MkTurn { flag_set : bool; io_status : TContIOStatus }.


Module ContBIO.

Definition SSL_RVAL_TIMEOUT : Z := -42.
Definition ETIMEDOUT : Z := 110.


Definition SetCanceledPtr (canceled : bool) (conn : TContBIO) : TContBIO :=
  MkContBIO (Timeout_ conn) (S_ conn) canceled (Cont_ conn).


Definition ReleaseCont (conn : TContBIO) : TContBIO :=
  MkContBIO (Timeout_ conn) (S_ conn) (Canceled_ conn) false.


(** The timeout after a poll that timed out. *)
Definition next_timeout (t : Z) : Z :=
  Z.min 1000000 (Int.to_size (t + Z.shiftr t 1)).




(** The timeout after [n] polls in a row have timed out. *)
Fixpoint timeout_after (t : Z) (n : nat) : Z :=
  match n with
  | O => t
  | S n' => timeout_after (next_timeout t) n'
  end.




End ContBIO.

(** ** The server's requests and jobs *)

Inductive TResponseError :=
| BadRequest | Forbidden | NotExistService | TooManyRequests | InternalError
| NotImplemented | BadGateway | ServiceUnavailable | BandwidthLimitExceeded
| MaxResponseError.

(** A server stream: what has been written to it, and whether [SSL_write]
    succeeds on it. *)
Record TSslServerIOStream := MkStream {
  written : string;
  SSL_write_ok : bool
}.

(** The jobs of the server's queue; a stream is named by its key in the
    server's store, where all the references to it meet. *)
Inductive IJob :=
| TRead (io : Z)
| TWrite (data : string) (compressionScheme : string) (io : option Z)
         (error : option TResponseError) (headers : string)
| TFail (io : Z).

Record TServer := MkServer {
  JQ_ : list IJob;
  streams : gmap Z TSslServerIOStream
}.

Record TRequest := MkRequest {
  IO_ : option Z;                 (* TIntrusivePtr<TSslServerIOStream> *)
  CompressionScheme_ : string
}.

(** What a handler may do with a request before dropping it. *)
Inductive Call :=
| CallSendReply (data headers : string)
| CallSendError (error : TResponseError) (text : string).

Module Server.

Local Open Scope string_scope.


Definition Enqueue (j : IJob) (srv : TServer) : TServer :=
  MkServer (JQ_ srv ++ [j]) (streams srv).

(** The constructor, on stream [io]. *)
Definition new_request (io : Z) (scheme : string) : TRequest :=
  MkRequest (Some io) scheme.

Section WithGzip.

(** The compressor: [None] when the gzipped data would not fit in the
    space of the original. *)
Variable gzip : string -> option string.

Definition Compress (r : TRequest) (data : string) : string * bool :=
  if String.eqb (CompressionScheme_ r) "gzip" then
    match gzip data with
    | Some gzipped => (gzipped, true)
    | None => (data, false)
    end
  else (data, false).

Definition SendReply (data headers : string) (r : TRequest) (srv : TServer)
  : TRequest * TServer :=
  let (data', compressed) := Compress r data in
  (MkRequest None (CompressionScheme_ r),
   Enqueue (TWrite data' (if compressed then CompressionScheme_ r else "")
              (IO_ r) None headers) srv).

Definition SendError (error : TResponseError) (text : string) (r : TRequest)
    (srv : TServer) : TRequest * TServer :=
  (MkRequest None (CompressionScheme_ r),
   Enqueue (TWrite "" "" (IO_ r) (Some error) "") srv).

Definition call (c : Call) (r : TRequest) (srv : TServer)
  : TRequest * TServer :=
  match c with
  | CallSendReply data headers => SendReply data headers r srv
  | CallSendError error text => SendError error text r srv
  end.

Fixpoint calls (cs : list Call) (r : TRequest) (srv : TServer)
  : TRequest * TServer :=
  match cs with
  | [] => (r, srv)
  | c :: cs' => let (r', srv') := call c r srv in calls cs' r' srv'
  end.

End WithGzip.







End Server.

(** ** Accepted sockets *)

(** How the server disposes of an accepted socket. *)
Inductive Accepted :=
| Refused        (* over the hard limit: [s->Close()] *)
| Reading        (* a [TRead] job runs on it *)
| Failed.        (* an exception, swallowed by [OnAcceptFull] *)

(** What happens to the sockets the server has accepted: a new one
    arrives ([throws] tells whether setting up its read job fails), or the
    last reference to a live one goes away. *)
Inductive SocketEvent :=
| SockAccept (throws : bool)
| SockDrop.

Module Accept.

Import InputConnections.

Definition set_counter (c : Z) (ic : TInputConnections) : TInputConnections :=
  MkInputConnections (Limits ic) c (MaxUnusedConnKeepaliveTimeout ic)
    (MinUnusedConnKeepaliveTimeout ic).

(** [TSharedSocket::TSharedSocket]: [Counter.Inc()]. *)
Definition TSharedSocket_ctor (ic : TInputConnections) : TInputConnections :=
  set_counter (Counter ic + 1) ic.

(** [TSharedSocket::~TSharedSocket]: [Counter.Dec()]. *)
Definition TSharedSocket_dtor (ic : TInputConnections) : TInputConnections :=
  set_counter (Counter ic - 1) ic.

(** [TServer::OnAcceptFull]: the socket is counted as soon as it is
    wrapped; refused or failed, it is destroyed on the way out. *)
Definition OnAcceptFull (throws : bool) (ic : TInputConnections)
  : TInputConnections * Accepted :=
  let ic1 := TSharedSocket_ctor ic in
  if negb (ExceedHardLimit ic1 =? 0) then (TSharedSocket_dtor ic1, Refused)
  else if throws then (TSharedSocket_dtor ic1, Failed)
  else (ic1, Reading).

(** One event; a drop needs a live socket. *)
Definition step (ev : SocketEvent) (ic : TInputConnections)
  : TInputConnections :=
  match ev with
  | SockAccept throws => fst (OnAcceptFull throws ic)
  | SockDrop => if 0 <? Counter ic then TSharedSocket_dtor ic else ic
  end.

Definition run (evs : list SocketEvent) (ic : TInputConnections)
  : TInputConnections :=
  fold_left (fun ic ev => step ev ic) evs ic.

End Accept.

(** ** The user-info field of a location *)

Module UserInfo.

Local Open Scope string_scope.

Lemma NextTok_shorter delim s :
  (String.length (snd (HostName.NextTok delim s)) <= String.length s)%nat.
Proof.
  induction s as [|c s IH]; cbn; [lia|].
  destruct (Ascii.eqb c delim); cbn; [lia|].
  destruct (HostName.NextTok delim s); cbn in *; lia.
Qed.

Lemma NextTok_consumes delim c s :
  (String.length (snd (HostName.NextTok delim (String c s)))
   < String.length (String c s))%nat.
Proof.
  cbn. destruct (Ascii.eqb c delim); cbn; [lia|].
  pose proof (NextTok_shorter delim s).
  destruct (HostName.NextTok delim s); cbn in *; lia.
Qed.

(** [ParseUserInfo], on the text of [loc.UserInfo] and the current values
    of [cert] and [pvtKey]: the values afterwards.  Each turn of
    [while (kws)] takes a name up to [=] and a value up to [;]. *)
Equations? ParseUserInfo (kws cert pvtKey : string) : string * string
  by wf (String.length kws) lt :=
  ParseUserInfo EmptyString cert pvtKey := (cert, pvtKey);
  ParseUserInfo (String c s) cert pvtKey :=
    let name := fst (HostName.NextTok "=" (String c s)) in
    let kws1 := snd (HostName.NextTok "=" (String c s)) in
    let value := fst (HostName.NextTok ";" kws1) in
    let kws2 := snd (HostName.NextTok ";" kws1) in
    if String.eqb "cert" name then ParseUserInfo kws2 value pvtKey
    else if String.eqb "key" name then ParseUserInfo kws2 cert value
    else ParseUserInfo kws2 cert pvtKey.
Proof.
  all: pose proof (NextTok_consumes "=" c s);
    pose proof (NextTok_shorter ";" (snd (HostName.NextTok "=" (String c s))));
    subst kws2 kws1; cbn [HostName.NextTok] in *; cbn [String.length] in *;
    lia.
Qed.

(** The text has no [delim] in it. *)
Definition free_of (delim : ascii) (s : string) : bool :=
  negb (existsb (fun c => Ascii.eqb c delim) (list_ascii_of_string s)).

End UserInfo.

(** ** The client's handshake *)

(** What the TLS library answers during a handshake. *)
Record SslAnswers := MkSslAnswers {
  set_tlsext_host_name_ret : Z;
  use_certificate_file_ret : Z;
  use_PrivateKey_file_ret : Z;
  check_private_key_ret : Z;
  do_handshake_ret : Z;
  peer_certificate : option X509
}.

(** The calls a handshake makes, in order. *)
Inductive SslCall :=
| SSL_set_tlsext_host_name (hostname : string)
| SSL_use_certificate_file (cert : string)
| SSL_use_PrivateKey_file (pvtKey : string)
| SSL_check_private_key
| SSL_do_handshake
| SSL_get_peer_certificate.

Inductive Thrown :=
| TSystemError (status : Z)
| TSslException (f : string).

Module ClientStream.

Local Open Scope string_scope.

Definition ECANCELED : Z := 125.

(** [TSslClientIOStream::Handshake], for a location with the given host
    and user info: the exception it ends with, if any, and its calls. *)
Definition Handshake (CheckCertificateHostname : bool) (Host UserInfo : string)
    (ssl : SslAnswers) : option Thrown * list SslCall :=
  let calls := [SSL_set_tlsext_host_name Host] in
  if negb (set_tlsext_host_name_ret ssl =? 1)%Z then
    (Some (TSslException "SSL_set_tlsext_host_name(client)"), calls)
  else
    let (cert, pvtKey) := UserInfo.ParseUserInfo UserInfo "" "" in
    let calls :=
      if String.eqb cert "" then calls
      else (calls ++ [SSL_use_certificate_file cert])%list in
    if negb (String.eqb cert "") && negb (use_certificate_file_ret ssl =? 1)%Z
    then (Some (TSslException "SSL_use_certificate_file(client)"), calls)
    else
      let key_step :=
        if String.eqb pvtKey "" then (None, calls)
        else
          let calls := (calls ++ [SSL_use_PrivateKey_file pvtKey])%list in
          if negb (use_PrivateKey_file_ret ssl =? 1)%Z then
            (Some (TSslException "SSL_use_PrivateKey_file(client)"), calls)
          else
            let calls := (calls ++ [SSL_check_private_key])%list in
            if negb (check_private_key_ret ssl =? 1)%Z then
              (Some (TSslException "SSL_check_private_key(client)"), calls)
            else (None, calls) in
      match key_step with
      | (Some e, calls) => (Some e, calls)
      | (None, calls) =>
          let calls := (calls ++ [SSL_do_handshake])%list in
          let rval := do_handshake_ret ssl in
          if negb (rval =? 1)%Z then
            if (rval =? ContBIO.SSL_RVAL_TIMEOUT)%Z
            then (Some (TSystemError ECANCELED), calls)
            else (Some (TSslException "BIO_do_handshake(client)"), calls)
          else if CheckCertificateHostname then
            let calls := (calls ++ [SSL_get_peer_certificate])%list in
            match peer_certificate ssl with
            | None =>
                (Some (TSslException "SSL_get_peer_certificate(client)"), calls)
            | Some peerCert =>
                if HostName.CheckCertHostname peerCert Host then (None, calls)
                else (Some (TSslException "CheckCertHostname(client)"), calls)
            end
          else (None, calls)
      end.

End ClientStream.

(** ** The cache of outgoing connections: accounting and the connector job *)

Module Pool.

Import ConnCache.

(** The sockets held in the queues, all hosts together. *)
Definition queued (lst : gmap Z TConnList) : Z :=
  map_fold (fun _ q n => n + Z.of_nat (length q)) 0 lst.

(** The cached counter counts what the queues hold. *)
Definition consistent (cc : TConnCache) : Prop :=
  CachedSockets cc = queued (Lst_ cc).



Definition ECANCELED : Z := 125.



(** The checkpoints of the [PollD] calls of a run, in order. *)
Fixpoint poll_checkpoints (evs : list Event) : list Z :=
  match evs with
  | [] => []
  | EvPollD t :: evs' => t :: poll_checkpoints evs'
  | _ :: evs' => poll_checkpoints evs'
  end.

(** The checkpoints ahead of a connect loop whose delay is [delay], at most
    [n] of them: each doubles the delay, up to the deadline. *)
Fixpoint backoff (n : nat) (delay : Z) : list Z :=
  match n with
  | O => []
  | S n' =>
      if Z.min 10000 delay <? 10000
      then Z.min 10000 (delay + delay) :: backoff n' (delay + delay)
      else []
  end.

(** The sockets a run opens. *)
Definition opens_socket (evs : list Event) : bool :=
  existsb (fun e => match e with EvSocket _ => true | _ => false end) evs.

End Pool.

(** ** The client's request job *)

(** The errors [THttpsRequest] builds itself:
    [TError(msg)], [TError(msg, type)] and [TError(msg, type, code)]. *)
Inductive TRequestErrorType := Cancelled | ProtocolSpecific.

Record TRequestError := MkRequestError {
  req_msg : string;
  req_type : option TRequestErrorType;
  req_code : option Z
}.

(** The error a handle is given: one of [Connect]'s, or one of the
    request's own. *)
Inductive TErrorRef :=
| FromConnect (error : option TError)
| Built (error : TRequestError).

(** What the handle of a request is told: [NotifyError(error)],
    [NotifyError(error, data)] or [NotifyResponse(data, headers)]. *)
Inductive Notification :=
| NotifyError (error : TErrorRef) (data : option string)
| NotifyResponse (data headers : string).

(** How the exchange on a connection ends (the [try] block of [DoRun]):
    [ProcessRecv] gets as far as the status code, or an exception leaves the
    block, with [received] as it stands then. *)
Inductive Exchange :=
| Returned (received headers firstLine : string) (code : Z)
| ThrewSystemError (status : Z) (what received : string)
| Threw (what received : string).

Module Request.

Import ConnCache Pool.

Definition canceled : TRequestError :=
  MkRequestError "canceled"%string (Some Cancelled) None.

(** [ProcessRecv], from the status code on. *)
Definition ProcessRecv (firstLine : string) (code : Z) : option TRequestError :=
  if (code <? 200) || (299 <? code) then
    Some (MkRequestError ("request failed(" ++ firstLine ++ ")")%string
            (Some ProtocolSpecific) (Some code))
  else None.

(** The error, the data and the headers the [try] block leaves behind;
    [cancelled] is [c->Cancelled()] as a handler finds it. *)
Definition outcome (x : Exchange) (cancelled : bool)
  : option TRequestError * string * string :=
  match x with
  | Returned received headers firstLine code =>
      (ProcessRecv firstLine code, received, headers)
  | ThrewSystemError status what received =>
      (Some (if cancelled || (status =? ECANCELED) then canceled
             else MkRequestError what None None), received, ""%string)
  | Threw what received =>
      (Some (if cancelled then canceled else MkRequestError what None None),
       received, ""%string)
  end.

(** [Connect] as [DoRun] calls it: with its coroutine and an error slot. *)
Definition from_job (env : ConnectEnv) : ConnectEnv :=
  MkConnectEnv true true (new_socket env) (ConnectD_ret env) (PollD_ret env)
    (others env).

(** [THttpsRequest::DoRun]: what the handle is told, the cache afterwards
    (the connection's holder destroyed) and what [Connect] and [Release]
    did.  [cancelled] is [c->Cancelled()] on entry; [stream_fails s] tells
    that the socket of [s] carries no stream yet and that building one
    ([TSslCtxClient::Instance()], [new TSslClientIOStream]) throws: that is
    before the [try] block, so the exception leaves [DoRun] and the handle
    is told nothing; [exchange] is the course of the [try] block on the
    connection obtained, [meanwhile] what the other coroutines do to the
    cache during that block, [cancelled_later] is [c->Cancelled()] in the
    handlers. *)
Definition DoRun (cancelled : bool) (env : ConnectEnv) (msgAddr : string)
    (addr : TResolvedHost) (stream_fails : TConnection -> bool)
    (exchange : TConnection -> Exchange)
    (meanwhile : TConnCache -> TConnCache) (cancelled_later : bool)
    (cc : TConnCache)
  : option (list Notification * TConnCache * list Event) :=
  if cancelled then Some ([NotifyError (Built canceled) None], cc, [])
  else
    match Connect (from_job env) msgAddr addr cc with
    | None => None
    | Some (None, error, cc1, evs) =>
        Some ([NotifyError (FromConnect error) None], cc1, evs)
    | Some (Some s, _, cc1, evs) =>
        if stream_fails s then Some ([], DestroyConnection false cc1, evs)
        else
          let cc2 := meanwhile cc1 in
          let '(error, received, headers) :=
            outcome (exchange s) cancelled_later in
          match error with
          | Some e =>
              Some ([NotifyError (Built e) (Some received)],
                    DestroyConnection false cc2, evs)
          | None =>
              match Release s cc2 with
              | None => None
              | Some (cc3, taken, evs2) =>
                  Some ([NotifyResponse received headers],
                        DestroyConnection taken cc3, (evs ++ evs2)%list)
              end
          end
    end.

Definition is_response (n : Notification) : bool :=
  match n with
  | NotifyResponse _ _ => true
  | NotifyError _ _ => false
  end.

End Request.

(** * Properties *)

(** ** Machine integers and limits *)

Section IntFacts.

Lemma to_size_small z : Int.is_size z -> Int.to_size z = z.
Proof. unfold Int.is_size, Int.to_size. intros H. apply Z.mod_small. lia. Qed.

Lemma to_size_range z : Int.is_size (Int.to_size z).
Proof. unfold Int.is_size, Int.to_size. apply Z.mod_pos_bound. lia. Qed.

Lemma to_size_le z : 0 <= z -> Int.to_size z <= z.
Proof. unfold Int.to_size. intros H. apply Z.mod_le; lia. Qed.

Lemma to_unsigned_small z : Int.is_unsigned z -> Int.to_unsigned z = z.
Proof.
  unfold Int.is_unsigned, Int.to_unsigned. intros H. apply Z.mod_small. lia.
Qed.

Lemma to_unsigned_le z : 0 <= z -> 0 <= Int.to_unsigned z <= z.
Proof.
  unfold Int.to_unsigned. intros H. split.
  - apply Z.mod_pos_bound. lia.
  - apply Z.mod_le; lia.
Qed.


Lemma size_div_some a b : b <> 0 -> Int.size_div a b = Some (a / b).
Proof.
  unfold Int.size_div. intros H. destruct (Z.eqb_spec b 0); congruence.
Qed.

Lemma ExceedLimit_max val limit :
  FdLimits.ExceedLimit val limit = Z.max 0 (val - limit).
Proof. unfold FdLimits.ExceedLimit. destruct (Z.ltb_spec limit val); lia. Qed.

Lemma ExceedLimit_zero val limit :
  FdLimits.ExceedLimit val limit = 0 <-> val <= limit.
Proof. rewrite ExceedLimit_max. lia. Qed.

Lemma Delta_wf l : FdLimits.wf l -> FdLimits.Delta l = Hard l - Soft l.
Proof.
  unfold FdLimits.wf, FdLimits.Delta, Int.size_max. intros (H0 & H1 & H2).
  apply to_size_small. unfold Int.is_size. lia.
Qed.

End IntFacts.

(** ** The input governor *)

Section Governor.

Import InputConnections.

(** The limits and bounds of the keep-alive scenario, with [n] sockets. *)
Definition scenario_S8 (n : Z) : TInputConnections :=
  MkInputConnections (MkFdLimits 10 100) n 120 10.

(** Above the soft limit the code divides what is left up to the hard limit
    by the width of the band plus one. *)
Lemma timeout_above_soft ic :
  wf ic ->
  Soft (Limits ic) < Counter ic ->
  Hard (Limits ic) - Soft (Limits ic) < Int.size_max ->
  UnusedConnKeepaliveTimeout ic =
    Some (Z.max
            (Int.to_unsigned
               (Int.to_size (MaxUnusedConnKeepaliveTimeout ic
                             * Z.max 0 (Hard (Limits ic) - Counter ic))
                / (Hard (Limits ic) - Soft (Limits ic) + 1)))
            (MinUnusedConnKeepaliveTimeout ic)).
Proof.
  intros (Hl & Hc & Hmax & Hmin) Hgt Hd.
  unfold UnusedConnKeepaliveTimeout, ExceedSoftLimit, DeltaLimit.
  rewrite (Delta_wf _ Hl).
  destruct Hl as (Hs0 & Hsh & Hh). unfold Int.size_max in *.
  rewrite (to_size_small (Counter ic)) by (unfold Int.is_size; lia).
  rewrite !ExceedLimit_max.
  replace (Z.max 0 (Counter ic - Soft (Limits ic)))
    with (Counter ic - Soft (Limits ic)) by lia.
  destruct (Z.eqb_spec (Counter ic - Soft (Limits ic)) 0) as [E|_];
    [lia|].
  rewrite (to_size_small (Hard (Limits ic) - Soft (Limits ic) + 1))
    by (unfold Int.is_size; lia).
  rewrite size_div_some by lia.
  replace (Hard (Limits ic) - Soft (Limits ic)
           - (Counter ic - Soft (Limits ic)))
    with (Hard (Limits ic) - Counter ic) by lia.
  reflexivity.
Qed.

Lemma timeout_at_most_soft ic :
  wf ic ->
  Counter ic <= Soft (Limits ic) ->
  UnusedConnKeepaliveTimeout ic = Some (MaxUnusedConnKeepaliveTimeout ic).
Proof.
  intros (Hl & Hc & _) Hle.
  unfold UnusedConnKeepaliveTimeout, ExceedSoftLimit.
  rewrite (to_size_small (Counter ic)) by (unfold Int.is_size; lia).
  rewrite (proj2 (ExceedLimit_zero _ _) Hle). reflexivity.
Qed.

(** The quotient never exceeds the upper bound, wrapped product or not. *)
Lemma quotient_bound m left d :
  0 <= m -> 0 <= left <= d ->
  0 <= Int.to_size (m * left) / (d + 1) <= m.
Proof.
  intros Hm Hl.
  assert (0 <= m * left) by nia.
  pose proof (to_size_le (m * left) H) as Hle.
  pose proof (to_size_range (m * left)) as [H0 _].
  split.
  - apply Z.div_pos; lia.
  - apply Z.div_le_upper_bound; [lia|]. nia.
Qed.

(** C5, as the code computes it: with soft 10, hard 100, bounds 10 s and
    120 s and [n] live sockets above the soft limit, the timeout is
    [120 * (100 - n) / (100 - 10 + 1)] seconds, and at least 10; for 55
    sockets that is [120 * 45 / 91 = 59] seconds. *)
Theorem keepalive_shrinkage_S8 (n : Z) :
  10 < n <= 100 ->
  UnusedConnKeepaliveTimeout (scenario_S8 n)
  = Some (Z.max 10 (120 * (100 - n) / (100 - 10 + 1))).
Proof.
  intros Hn.
  rewrite timeout_above_soft; cbn [scenario_S8 Limits Counter Soft Hard
    MaxUnusedConnKeepaliveTimeout MinUnusedConnKeepaliveTimeout].
  - replace (Z.max 0 (100 - n)) with (100 - n) by lia.
    rewrite (to_size_small (120 * (100 - n)))
      by (unfold Int.is_size; lia).
    rewrite to_unsigned_small.
    + f_equal. lia.
    + unfold Int.is_unsigned. split.
      * apply Z.div_pos; lia.
      * apply Z.div_lt_upper_bound; lia.
  - unfold wf, FdLimits.wf, Int.is_unsigned, Int.size_max. cbn. lia.
  - lia.
  - unfold Int.size_max. lia.
Qed.

Lemma keepalive_shrinkage_S8_at_55 :
  10 < 55 <= 100 /\
  UnusedConnKeepaliveTimeout (scenario_S8 55) = Some 59.
Proof.
  split; [lia|]. exact (keepalive_shrinkage_S8 55 ltac:(lia)).
Defined.

(** C5, as stated, fails: for 55 sockets the code computes 59 seconds, which
    is neither [120 * (100 - 55 - 10) / (100 - 10 + 1) = 46] nor about 47. *)
Lemma keepalive_S8_is_not_47 :
  UnusedConnKeepaliveTimeout (scenario_S8 55) = Some 59 /\
  120 * (100 - 55 - 10) / (100 - 10 + 1) = 46 /\
  ~ (46 <= 59 <= 47).
Proof.
  split; [vm_compute; reflexivity|]. split; [vm_compute; reflexivity|]. lia.
Qed.

(** C6, within [size_t]: for every state of the governor in which neither
    [d + 1] nor [max_keepalive_s * left] wraps, the timeout is the maximum
    at or below the soft limit and
    [max (min_keepalive_s, max_keepalive_s * left / (d + 1))] above it. *)
Theorem keepalive_timeout_formula ic :
  wf ic -> no_overflow ic ->
  UnusedConnKeepaliveTimeout ic = Some (spec_timeout ic).
Proof.
  intros Hwf (Hd & Hprod). unfold spec_timeout.
  destruct (Z.leb_spec (Counter ic) (Soft (Limits ic))) as [Hle|Hgt].
  - apply timeout_at_most_soft; assumption.
  - rewrite timeout_above_soft by assumption.
    destruct Hwf as ((Hs0 & Hsh & Hh) & Hc & Hmax & Hmin).
    unfold Int.is_unsigned, Int.size_max in *.
    set (m := MaxUnusedConnKeepaliveTimeout ic) in *.
    set (hard := Hard (Limits ic)) in *.
    set (soft := Soft (Limits ic)) in *.
    set (counter := Counter ic) in *.
    replace (Z.max 0 (hard - soft - (counter - soft)))
      with (Z.max 0 (hard - counter)) in * by lia.
    assert (Hp : 0 <= m * Z.max 0 (hard - counter)) by nia.
    rewrite (to_size_small (m * Z.max 0 (hard - counter)))
      by (unfold Int.is_size; lia).
    rewrite to_unsigned_small.
    + f_equal. apply Z.max_comm.
    + unfold Int.is_unsigned. split.
      * apply Z.div_pos; lia.
      * apply Z.div_lt_upper_bound; [lia|]. nia.
Qed.

Lemma keepalive_timeout_formula_default :
  wf (MkInputConnections FdLimits.default 12500 120 10) /\
  no_overflow (MkInputConnections FdLimits.default 12500 120 10) /\
  UnusedConnKeepaliveTimeout (MkInputConnections FdLimits.default 12500 120 10)
  = Some 59.
Proof.
  assert (Hwf : wf (MkInputConnections FdLimits.default 12500 120 10)).
  { unfold wf, FdLimits.wf, Int.is_unsigned, Int.size_max. cbn. lia. }
  assert (Hno : no_overflow (MkInputConnections FdLimits.default 12500 120 10)).
  { unfold no_overflow, Int.size_max. cbn. lia. }
  split; [exact Hwf|]. split; [exact Hno|].
  exact (keepalive_timeout_formula _ Hwf Hno).
Defined.

(** Limits below [2 ^ 32] keep the arithmetic inside [size_t]. *)
Lemma no_overflow_small ic :
  wf ic -> Hard (Limits ic) < 2 ^ 32 -> no_overflow ic.
Proof.
  intros ((Hs0 & Hsh & Hh) & Hc & Hmax & Hmin) Hsmall.
  unfold no_overflow, Int.is_unsigned, Int.size_max in *. split; [lia|]. nia.
Qed.

(** The state on which the product wraps. *)
Definition wide_limits : TInputConnections :=
  MkInputConnections (MkFdLimits 0 (2 ^ 64 - 2)) 1 120 10.

(** C6, as stated, fails where [max_keepalive_s * left] wraps: with limits
    [0] and [2 ^ 64 - 2] and one socket the code answers 10 seconds, the
    formula 119. *)
Lemma keepalive_formula_wraps :
  wf wide_limits /\
  UnusedConnKeepaliveTimeout wide_limits = Some 10 /\
  spec_timeout wide_limits = 119.
Proof.
  split; [|split]; [|vm_compute; reflexivity ..].
  unfold wf, FdLimits.wf, Int.is_unsigned, Int.size_max. cbn. lia.
Qed.

(** C10, where the division is defined: for limits whose band [hard - soft]
    is below [SIZE_MAX] and bounds with [min <= max], the timeout is the
    maximum at or below the soft limit and lies between the bounds above
    it. *)
Theorem keepalive_timeout_bounds ic :
  wf ic ->
  MinUnusedConnKeepaliveTimeout ic <= MaxUnusedConnKeepaliveTimeout ic ->
  Hard (Limits ic) - Soft (Limits ic) < Int.size_max ->
  exists v, UnusedConnKeepaliveTimeout ic = Some v /\
    (Soft (Limits ic) < Counter ic ->
       MinUnusedConnKeepaliveTimeout ic <= v <= MaxUnusedConnKeepaliveTimeout ic) /\
    (Counter ic <= Soft (Limits ic) ->
       v = MaxUnusedConnKeepaliveTimeout ic).
Proof.
  intros Hwf Hmm Hd.
  destruct (Z.leb_spec (Counter ic) (Soft (Limits ic))) as [Hle|Hgt].
  - exists (MaxUnusedConnKeepaliveTimeout ic). split; [|split].
    + apply timeout_at_most_soft; assumption.
    + lia.
    + reflexivity.
  - eexists. split; [apply timeout_above_soft; assumption|]. split; [|lia].
    intros _.
    destruct Hwf as ((Hs0 & Hsh & Hh) & Hc & Hmax & Hmin).
    unfold Int.is_unsigned in *.
    pose proof (quotient_bound (MaxUnusedConnKeepaliveTimeout ic)
                  (Z.max 0 (Hard (Limits ic) - Counter ic))
                  (Hard (Limits ic) - Soft (Limits ic))
                  ltac:(lia) ltac:(lia)) as [Hq0 Hq].
    pose proof (to_unsigned_le _ Hq0). lia.
Qed.

Lemma keepalive_timeout_bounds_S8 :
  exists v, UnusedConnKeepaliveTimeout (scenario_S8 95) = Some v /\
            10 <= v <= 120.
Proof.
  destruct (keepalive_timeout_bounds (scenario_S8 95)) as (v & Hv & Hb & _).
  - unfold wf, FdLimits.wf, Int.is_unsigned, Int.size_max. cbn. lia.
  - cbn. lia.
  - unfold Int.size_max. cbn. lia.
  - exists v. split; [exact Hv|]. apply Hb. cbn. lia.
Defined.

(** The state on which the band plus one wraps to zero. *)
Definition widest_limits : TInputConnections :=
  MkInputConnections (MkFdLimits 0 (2 ^ 64 - 1)) 1 120 10.

(** C10, as stated, fails for the limits [0] and [SIZE_MAX]: above the soft
    limit the divisor [d + 1] is zero and no value is returned. *)
Lemma keepalive_bounds_divide_by_zero :
  wf widest_limits /\
  MinUnusedConnKeepaliveTimeout widest_limits
    <= MaxUnusedConnKeepaliveTimeout widest_limits /\
  Soft (Limits widest_limits) < Counter widest_limits /\
  ~ (exists v, UnusedConnKeepaliveTimeout widest_limits = Some v).
Proof.
  split; [|split; [|split]].
  - unfold wf, FdLimits.wf, Int.is_unsigned, Int.size_max. cbn. lia.
  - cbn. lia.
  - cbn. lia.
  - intros (v & Hv). vm_compute in Hv. discriminate.
Qed.

End Governor.

(** ** Certificate host names *)

Section HostNames.

Import HostName.
Local Open Scope string_scope.











(** The text [NextTok] leaves is empty exactly for a name without a dot or
    with a single dot at its end. *)
Lemma NextTok_rest_empty name :
  snd (NextTok "." name) = "" <->
  contains_dot name = false \/
  exists l, contains_dot l = false /\ name = l ++ ".".
Proof.
  unfold contains_dot. induction name as [|c s IH].
  - cbn. split; [left; reflexivity|reflexivity].
  - cbn [NextTok list_ascii_of_string existsb].
    destruct (Ascii.eqb c ".") eqn:Hc; cbn [orb].
    + apply Ascii.eqb_eq in Hc. subst c. cbn [snd]. split.
      * intros ->. right. exists "". split; reflexivity.
      * intros [H|(l & Hl & E)]; [discriminate|].
        destruct l as [|c' l']; cbn in E.
        -- injection E as E. assumption.
        -- injection E as E1 E2. subst c'. cbn in Hl. discriminate.
    + destruct (NextTok "." s) as [tok rest]. cbn [snd] in *.
      rewrite IH. split.
      * intros [H|(l & Hl & E)]; [left; assumption|].
        right. exists (String c l). cbn [list_ascii_of_string existsb].
        rewrite Hc. subst s. split; [assumption|reflexivity].
      * intros [H|(l & Hl & E)]; [left; assumption|].
        destruct l as [|c' l']; cbn in E.
        -- injection E as E1 E2. subst c. discriminate.
        -- injection E as E1 E2. subst c'.
           cbn [list_ascii_of_string existsb] in Hl. rewrite Hc in Hl.
           right. exists l'. split; assumption.
Qed.

Lemma EqualNoCase_empty s : EqualNoCase "" s = true <-> s = "".
Proof. destruct s; cbn; split; congruence. Qed.

(** C9, without the hostnames that end in their only dot: the template [*]
    matches every hostname that has no dot; of the hostnames that contain a
    dot it matches exactly those with nothing after their first dot, that
    is a dot-free label followed by one final dot. *)
Theorem wildcard_alone_matches name :
  MatchDomainName "*" name = true <->
  contains_dot name = false \/
  exists l, contains_dot l = false /\ name = l ++ ".".
Proof.
  rewrite <- NextTok_rest_empty. unfold MatchDomainName.
  cbn [NextTok Ascii.eqb Bool.eqb String.eqb].
  destruct (NextTok "." name) as [tok rest]. cbn [snd].
  apply EqualNoCase_empty.
Qed.

(** C9, as stated, fails: the template [*] matches the hostname ["a."],
    which contains a dot. *)
Lemma wildcard_alone_matches_dotted :
  MatchDomainName "*" "a." = true /\ contains_dot "a." = true.
Proof. split; reflexivity. Qed.

(** Scenario S4: a wildcard covers one label, not two. *)
Lemma wildcard_S4 :
  MatchDomainName "*.example.com" "api.example.com" = true /\
  MatchDomainName "*.example.com" "x.api.example.com" = false /\
  MatchDomainName "*.Example.COM" "API.example.com" = true /\
  MatchDomainName "ww*.yandex.ru" "www.yandex.ru" = false.
Proof. repeat split. Qed.

(** *** Case does not matter *)












(** *** The matcher over what [to_lower] returns *)











(** *** The certificate check *)

(** A certificate passes for a host when one of its DNS alternative names
    matches, or, only when it has no alternative names at all, when its
    common name matches. *)
Lemma CheckCertHostname_spec cert hostname :
  CheckCertHostname cert hostname = true <->
  match subject_alt_name cert with
  | Some names =>
      exists dnsName, In (GEN_DNS dnsName) names
                      /\ MatchDomainName dnsName hostname = true
  | None =>
      exists cn, commonName cert = Some cn
                 /\ MatchDomainName cn hostname = true
  end.
Proof.
  unfold CheckCertHostname, MatchCertAltNames, MatchCertCommonName.
  destruct (subject_alt_name cert) as [names|].
  - destruct (existsb _ names) eqn:E.
    + split; [intros _|reflexivity].
      apply existsb_exists in E as ([d|] & Hin & Hm); [|discriminate].
      exists d. split; assumption.
    + split; [discriminate|]. intros (d & Hin & Hm).
      assert (existsb (fun name => match name with
                                   | GEN_DNS dnsName =>
                                       MatchDomainName dnsName hostname
                                   | GEN_OTHER => false
                                   end) names = true) as E'.
      { apply existsb_exists. exists (GEN_DNS d). split; assumption. }
      congruence.
  - destruct (commonName cert) as [cn|].
    + destruct (MatchDomainName cn hostname) eqn:E.
      * split; [intros _; exists cn; split; [reflexivity|exact E]|reflexivity].
      * split; [discriminate|]. intros (cn' & [= <-] & Hm). congruence.
    + split; [discriminate|]. intros (cn & Hcn & _). discriminate.
Qed.

End HostNames.

(** ** The cache of outgoing connections: [Connect] *)

Section Connecting.

Import ConnCache.

(** The connect loop ends within the rounds its doubling delay allows. *)
Lemma connect_loop_ends env addr fuel :
  forall k ret delay checkpoint res cc evs,
    (0 < fuel)%nat ->
    checkpoint = Z.min 10000 delay ->
    0 < delay ->
    10000 <= delay * 2 ^ (Z.of_nat fuel - 1) ->
    exists r, connect_loop fuel env addr k ret delay checkpoint res cc evs
              = Some r.
Proof.
  induction fuel as [|fuel IH]; intros k ret delay checkpoint res cc evs
    Hfuel Hcp Hdelay Hreach; [lia|].
  cbn [connect_loop].
  destruct (((ret =? ETIMEDOUT) || (ret =? EINTR)) && (checkpoint <? 10000))
    eqn:Hcond; [|eexists; reflexivity].
  apply andb_true_iff in Hcond as [_ Hlt]. apply Z.ltb_lt in Hlt.
  assert (Hfuel' : (0 < fuel)%nat).
  { destruct fuel; [|lia]. cbn in Hreach. lia. }
  assert (Hnext : forall k' ret' cc' evs',
             exists r, connect_loop fuel env addr k' ret' (delay + delay)
                         (Z.min 10000 (delay + delay)) res cc' evs' = Some r).
  { intros. apply IH; [assumption|reflexivity|lia|].
    replace (Z.of_nat (S fuel) - 1) with (Z.succ (Z.of_nat fuel - 1)) in Hreach
      by lia.
    rewrite Z.pow_succ_r in Hreach by lia. lia. }
  destruct (Dequeue addr cc) as [[res2 cc1]|].
  - destruct (NotClosedByOtherSide res2); [eexists; reflexivity|].
    destruct (PollD_ret env k =? 0); [eexists; reflexivity|apply Hnext].
  - destruct (PollD_ret env k =? 0); [eexists; reflexivity|apply Hnext].
Qed.

(** [Connect] always returns. *)
Lemma Connect_returns env msgAddr addr cc :
  exists r, Connect env msgAddr addr cc = Some r.
Proof.
  unfold Connect.
  destruct (negb (ExceedHardLimit cc =? 0)); [eexists; reflexivity|].
  destruct (drain (ConnList cc addr) (CachedSockets cc)) as [[found q'] cached'].
  destruct found as [res|]; [eexists; reflexivity|].
  destruct (negb (has_cont env)); [eexists; reflexivity|].
  destruct (ConnectD_ret env =? 0); [eexists; reflexivity|].
  match goal with
  | |- context [connect_loop ?f ?e ?a ?k ?r ?d ?c ?s ?cc0 ?ev] =>
      destruct (connect_loop_ends e a f k r d c s cc0 ev) as [[[e' cc3] evs'] ->]
  end; [unfold connect_rounds; lia|reflexivity|lia|vm_compute; discriminate|].
  eexists; reflexivity.
Qed.

Lemma total_sockets_small cc :
  0 <= ActiveSockets cc -> 0 <= CachedSockets cc ->
  ActiveSockets cc + CachedSockets cc < 2 ^ 64 ->
  TotalSockets cc = ActiveSockets cc + CachedSockets cc.
Proof.
  intros. unfold TotalSockets. apply to_size_small. unfold Int.is_size. lia.
Qed.

(** C2, at the limit the code tests: an acquire fails with the output-limit
    error, touching neither the cache nor a socket, when the connections
    handed out and cached together exceed the hard limit
    ([active + cached > hard]; with [hard = 1], two connections handed
    out); while they do not exceed it, the error of an acquire is never
    the output-limit one. *)
Theorem Connect_hard_limit env msgAddr addr cc :
  has_error env = true ->
  0 <= ActiveSockets cc -> 0 <= CachedSockets cc ->
  ActiveSockets cc + CachedSockets cc < 2 ^ 64 ->
  (Hard (Limits cc) < ActiveSockets cc + CachedSockets cc ->
   Connect env msgAddr addr cc = Some (None, Some OutputLimit, cc, [])) /\
  (ActiveSockets cc + CachedSockets cc <= Hard (Limits cc) ->
   exists conn e cc' evs,
     Connect env msgAddr addr cc = Some (conn, e, cc', evs) /\
     e <> Some OutputLimit).
Proof.
  intros Herr Ha Hc Hsum.
  pose proof (total_sockets_small cc Ha Hc Hsum) as Htotal.
  split; intros Hcmp.
  - unfold Connect, ExceedHardLimit, put_error.
    rewrite Htotal, ExceedLimit_max, Herr.
    destruct (Z.eqb_spec (Z.max 0 (ActiveSockets cc + CachedSockets cc
                                   - Hard (Limits cc))) 0); [lia|].
    reflexivity.
  - destruct (Connect_returns env msgAddr addr cc) as [[[[conn e] cc'] evs] Hr].
    exists conn, e, cc', evs. split; [exact Hr|].
    revert Hr. unfold Connect, ExceedHardLimit, put_error.
    rewrite Htotal, (proj2 (ExceedLimit_zero _ _) Hcmp), Herr.
    cbn [Z.eqb negb].
    destruct (drain (ConnList cc addr) (CachedSockets cc))
      as [[found q'] cached'].
    destruct found as [res|]; [intros [= <- <- <- <-]; discriminate|].
    destruct (negb (has_cont env)); [intros [= <- <- <- <-]; discriminate|].
    destruct (ConnectD_ret env =? 0); [intros [= <- <- <- <-]; discriminate|].
    destruct (connect_loop _ _ _ _ _ _ _ _ _ _) as [[[[res'|] cc3] evs']|];
      [| |discriminate]; intros [= <- <- <- <-]; discriminate.
Qed.

(** One connection handed out, and two, under a hard limit of one. *)
Definition one_in_flight : TConnCache :=
  MkConnCache (MkFdLimits 0 1) 1 0 ∅ false 0 false.

Definition two_in_flight : TConnCache :=
  MkConnCache (MkFdLimits 0 1) 2 0 ∅ false 0 false.

(** A caller with a coroutine and an error slot whose connect succeeds at
    once. *)
Definition connecting_env : ConnectEnv :=
  MkConnectEnv true true (MkSocket 9 true) 0 (fun _ => 0) (fun _ cc => cc).

Lemma Connect_hard_limit_two_in_flight :
  Connect connecting_env "new.host:443" (MkHost 7) two_in_flight
  = Some (None, Some OutputLimit, two_in_flight, []).
Proof.
  apply (Connect_hard_limit connecting_env "new.host:443" (MkHost 7)
           two_in_flight); cbn; try reflexivity; lia.
Defined.

(** C2, as stated, fails: with [hard = 1] and one connection handed out, an
    acquire for a new host passes the limit check, opens a socket and
    returns a connection. *)
Lemma Connect_at_hard_limit_connects :
  Connect connecting_env "new.host:443" (MkHost 7) one_in_flight
  = Some (Some (MkConnection (MkSocket 9 true) false (MkHost 7)), None,
          two_in_flight,
          [EvCreateJob (MkHost 7) None; EvSocket (MkHost 7); EvConnectD 8;
           EvPrepareSocket (MkSocket 9 true)]).
Proof. vm_compute. reflexivity. Qed.

End Connecting.

(** ** The cache of outgoing connections: the purger *)

Section Purging.

Import ConnCache.

Lemma purge_dequeue_fst n :
  forall q st, fst (purge_dequeue n q st) = skipn n q.
Proof.
  induction n as [|n IH]; intros [|s q] st; cbn; try reflexivity. apply IH.
Qed.

Lemma purge_dequeue_cached n :
  forall q st,
    p_cached (snd (purge_dequeue n q st))
    = p_cached st - Z.of_nat (Nat.min n (length q)).
Proof.
  induction n as [|n IH]; intros [|s q] st; cbn [purge_dequeue snd];
    try (cbn; lia).
  rewrite IH. cbn [OnPurgeSocket p_cached length Nat.min]. lia.
Qed.


(** The cached counter drops by what leaves the queue. *)
Lemma purge_queue_cached frac q st :
  p_cached (snd (purge_queue frac q st))
  = p_cached st
    - (Z.of_nat (length q) - Z.of_nat (length (fst (purge_queue frac q st)))).
Proof.
  unfold purge_queue.
  destruct (Z.eqb_spec (Z.of_nat (length q)) 0); [cbn; lia|].
  destruct (Z.shiftr (Int.to_size (Z.of_nat (length q) * frac)) 8 =? 0).
  - destruct (Z.of_nat (length q) <=? 2).
    + destruct q as [|res q]; [cbn; lia|].
      destruct (NotClosedByOtherSide res); cbn [fst snd OnPurgeSocket p_cached].
      * rewrite length_app. cbn [length]. lia.
      * cbn [length]. lia.
    + rewrite purge_dequeue_fst, purge_dequeue_cached, length_skipn. lia.
  - rewrite purge_dequeue_fst, purge_dequeue_cached, length_skipn. lia.
Qed.

Lemma purge_queue_shrinks frac q st :
  (length (fst (purge_queue frac q st)) <= length q)%nat.
Proof.
  unfold purge_queue.
  destruct (Z.of_nat (length q) =? 0); [cbn; lia|].
  destruct (Z.shiftr (Int.to_size (Z.of_nat (length q) * frac)) 8 =? 0).
  - destruct (Z.of_nat (length q) <=? 2).
    + destruct q as [|res q]; [cbn; lia|].
      destruct (NotClosedByOtherSide res); cbn [fst].
      * rewrite length_app. cbn [length]. lia.
      * cbn [length]. lia.
    + rewrite purge_dequeue_fst, length_skipn. lia.
  - rewrite purge_dequeue_fst, length_skipn. lia.
Qed.

(** A queue of more than two sockets, or with a closed socket at its
    front, loses at least one. *)
Lemma purge_queue_strict frac q st :
  (2 < length q)%nat \/ head_closed q = true ->
  (length (fst (purge_queue frac q st)) < length q)%nat.
Proof.
  intros Hq. unfold purge_queue.
  destruct (Z.eqb_spec (Z.of_nat (length q)) 0) as [E|N].
  { destruct q; [|cbn in E; lia]. destruct Hq as [Hq|Hq]; cbn in Hq;
      [lia|discriminate]. }
  destruct (Z.eqb_spec (Z.shiftr (Int.to_size (Z.of_nat (length q) * frac)) 8) 0)
    as [E0|N0].
  - destruct (Z.leb_spec (Z.of_nat (length q)) 2) as [Hle|Hgt].
    + destruct q as [|res q]; [cbn in N; lia|].
      destruct Hq as [Hq|Hq]; [lia|]. cbn in Hq.
      destruct (NotClosedByOtherSide res); [discriminate|]. cbn. lia.
    + rewrite purge_dequeue_fst, length_skipn. lia.
  - rewrite purge_dequeue_fst, length_skipn.
    assert (0 <= Z.shiftr (Int.to_size (Z.of_nat (length q) * frac)) 8).
    { apply Z.shiftr_nonneg. apply to_size_range. }
    lia.
Qed.


Lemma Get_insert lst j q i :
  Get (<[j := q]> lst) i = if decide (j = i) then q else Get lst i.
Proof.
  unfold Get. rewrite lookup_insert. destruct (decide (j = i)); reflexivity.
Qed.

(** One step of the loop, whether the queue is empty or not. *)
Lemma purge_loop_cons frac i ids lst st :
  purge_loop frac (i :: ids) lst st
  = purge_loop frac ids
      (match Get lst i with
       | [] => lst
       | _ => <[i := fst (purge_queue frac (Get lst i) st)]> lst
       end)
      (snd (purge_queue frac (Get lst i) st)).
Proof.
  cbn [purge_loop]. destruct (Get lst i) as [|s q] eqn:E; [reflexivity|].
  destruct (purge_queue frac (s :: q) st). reflexivity.
Qed.

Lemma Get_after_step frac j lst st i :
  Get (match Get lst j with
       | [] => lst
       | _ => <[j := fst (purge_queue frac (Get lst j) st)]> lst
       end) i
  = if decide (j = i) then fst (purge_queue frac (Get lst i) st)
    else Get lst i.
Proof.
  destruct (Get lst j) as [|s q] eqn:E.
  - destruct (decide (j = i)) as [->|]; [|reflexivity]. rewrite E. reflexivity.
  - rewrite Get_insert. destruct (decide (j = i)) as [->|]; [|reflexivity].
    rewrite E. reflexivity.
Qed.

(** Queues the loop does not visit stay as they are. *)
Lemma purge_loop_unvisited frac ids :
  forall lst st i, ~ In i ids ->
    Get (fst (purge_loop frac ids lst st)) i = Get lst i.
Proof.
  induction ids as [|j ids IH]; intros lst st i Hi; [reflexivity|].
  rewrite purge_loop_cons, IH by (cbn in Hi; tauto).
  rewrite Get_after_step. destruct (decide (j = i)); [|reflexivity].
  subst. cbn in Hi. tauto.
Qed.


Lemma purge_loop_cached_le frac ids :
  forall lst st, p_cached (snd (purge_loop frac ids lst st)) <= p_cached st.
Proof.
  induction ids as [|j ids IH]; intros lst st; [cbn; lia|].
  rewrite purge_loop_cons. etransitivity; [apply IH|].
  rewrite purge_queue_cached.
  pose proof (purge_queue_shrinks frac (Get lst j) st). lia.
Qed.

Lemma purge_loop_cached_lt frac ids :
  forall lst st i, List.NoDup ids -> In i ids ->
    (2 < length (Get lst i))%nat \/ head_closed (Get lst i) = true ->
    p_cached (snd (purge_loop frac ids lst st)) < p_cached st.
Proof.
  induction ids as [|j ids IH]; intros lst st i Hnd Hi Hq; [destruct Hi|].
  rewrite purge_loop_cons. inversion Hnd as [|? ? Hj Hnd']; subst.
  destruct (decide (j = i)) as [->|Hne].
  - eapply Z.le_lt_trans; [apply purge_loop_cached_le|].
    rewrite purge_queue_cached.
    pose proof (purge_queue_strict frac (Get lst i) st Hq). lia.
  - destruct Hi as [->|Hi]; [congruence|].
    eapply Z.lt_le_trans.
    + apply (IH _ _ i Hnd' Hi). rewrite Get_after_step.
      destruct (decide (j = i)); [congruence|]. exact Hq.
    + rewrite purge_queue_cached.
      pose proof (purge_queue_shrinks frac (Get lst j) st). lia.
Qed.

Lemma visited_NoDup cc : List.NoDup (visited cc).
Proof.
  unfold visited. destruct (Shutdown_ cc); [constructor|].
  apply Finite.Injective_map_NoDup; [|apply List.seq_NoDup].
  intros x y. apply Nat2Z.inj.
Qed.

Lemma visited_In cc i :
  In i (visited cc) <-> Shutdown_ cc = false /\ 0 <= i < MaxConnId_ cc.
Proof.
  unfold visited. destruct (Shutdown_ cc).
  - cbn. split; [tauto|]. intros [? _]. discriminate.
  - rewrite in_map_iff. split.
    + intros (n & <- & Hn%in_seq). split; [reflexivity|lia].
    + intros [_ Hi]. exists (Z.to_nat i). split; [lia|]. apply in_seq. lia.
Qed.

(** The share to purge, within the states of the cache. *)
Lemma frac256_wf cc :
  wf cc ->
  frac256 cc
  = Some (Z.min (Z.max (256 / 32)
                   (Z.max 0 (ActiveSockets cc + CachedSockets cc
                             - Soft (Limits cc)) * 256
                    / (CachedSockets cc + 1))) 256).
Proof.
  intros ((Hs0 & Hsh & Hh) & Ha & Hc & Hm & Hq).
  unfold frac256, ExceedSoftLimit.
  rewrite total_sockets_small by lia. rewrite ExceedLimit_max.
  rewrite Z.shiftl_mul_pow2 by lia. change (2 ^ 8) with 256.
  rewrite (to_size_small (_ * 256)) by (unfold Int.is_size; lia).
  rewrite (to_size_small (CachedSockets cc + 1)) by (unfold Int.is_size; lia).
  rewrite size_div_some by lia. reflexivity.
Qed.

(** What a purge run returns, within the states of the cache. *)
Lemma PurgeCache_wf cc :
  wf cc ->
  exists frac,
    frac256 cc = Some frac /\ 256 / 32 <= frac <= 256 /\
    PurgeCache cc
    = Some (MkConnCache (Limits cc) (ActiveSockets cc)
              (p_cached (snd (purge_loop frac (visited cc) (Lst_ cc)
                                (MkPurgeSt (CachedSockets cc) 0 []))))
              (fst (purge_loop frac (visited cc) (Lst_ cc)
                      (MkPurgeSt (CachedSockets cc) 0 [])))
              (InPurging_ cc) (MaxConnId_ cc) (Shutdown_ cc),
            p_events (snd (purge_loop frac (visited cc) (Lst_ cc)
                             (MkPurgeSt (CachedSockets cc) 0 [])))).
Proof.
  intros Hwf. eexists. split; [apply frac256_wf; assumption|].
  split; [change (256 / 32) with 8; lia|].
  unfold PurgeCache. rewrite frac256_wf by assumption.
  destruct (purge_loop _ _ _ _). reflexivity.
Qed.


(** A cache of forty idle connections to one host, thirty over the soft
    limit. *)
Definition forty_cached : TConnCache :=
  MkConnCache (MkFdLimits 10 100) 0 40
    (<[0 := repeat (MkSocket 3 true) 40]> ∅) false 1 false.

Lemma forty_cached_wf : wf forty_cached.
Proof.
  unfold wf, FdLimits.wf, Int.size_max, forty_cached.
  cbn [Limits Soft Hard ActiveSockets CachedSockets MaxConnId_ Lst_].
  repeat split; try lia. intros i. rewrite Get_insert.
  destruct (decide (0 = i)); [|unfold Get; rewrite lookup_empty];
    vm_compute; reflexivity.
Qed.



(** C4, as far as it holds: a purge run always terminates and never
    increases the cached count; with no shutdown requested it strictly
    decreases it whenever some queue with index in [[0, max_host_id)]
    holds more than two entries or has a socket closed by its peer at its
    front. *)
Theorem PurgeCache_terminates cc :
  wf cc ->
  exists cc' evs,
    PurgeCache cc = Some (cc', evs) /\
    CachedSockets cc' <= CachedSockets cc /\
    (Shutdown_ cc = false ->
     (exists i, 0 <= i < MaxConnId_ cc /\
                ((2 < length (Get (Lst_ cc) i))%nat \/
                 head_closed (Get (Lst_ cc) i) = true)) ->
     CachedSockets cc' < CachedSockets cc).
Proof.
  intros Hwf.
  destruct (PurgeCache_wf cc Hwf) as (frac & _ & _ & ->).
  do 2 eexists. split; [reflexivity|]. cbn [CachedSockets]. split.
  - apply (purge_loop_cached_le frac (visited cc) (Lst_ cc)
             (MkPurgeSt (CachedSockets cc) 0 [])).
  - intros Hrun (i & Hi & Hq).
    apply (purge_loop_cached_lt frac (visited cc) (Lst_ cc)
             (MkPurgeSt (CachedSockets cc) 0 []) i (visited_NoDup cc)).
    + apply visited_In. split; assumption.
    + exact Hq.
Qed.

Lemma PurgeCache_terminates_forty :
  exists cc' evs,
    PurgeCache forty_cached = Some (cc', evs) /\
    CachedSockets cc' < CachedSockets forty_cached.
Proof.
  destruct (PurgeCache_terminates forty_cached forty_cached_wf)
    as (cc' & evs & Hrun & _ & Hlt).
  exists cc', evs. split; [exact Hrun|].
  apply Hlt; [reflexivity|]. exists 0. split; [cbn; lia|].
  left. vm_compute. lia.
Defined.

(** Ten idle connections, two to each of the hosts [0 .. 4], and one more
    connection, to host [5], still handed out: eleven sockets over a soft
    limit of ten. *)
Definition pairs_cached : TConnCache :=
  MkConnCache (MkFdLimits 10 100) 1 10
    (<[4 := [MkSocket 18 true; MkSocket 19 true]]>
       (<[3 := [MkSocket 16 true; MkSocket 17 true]]>
          (<[2 := [MkSocket 14 true; MkSocket 15 true]]>
             (<[1 := [MkSocket 12 true; MkSocket 13 true]]>
                (<[0 := [MkSocket 10 true; MkSocket 11 true]]> ∅)))))
    false 4 false.

(** C4, as stated, fails: releasing the eleventh connection wakes the
    purger on a cache of eleven live sockets, and the run that follows
    leaves all eleven cached. *)
Lemma PurgeCache_leaves_live_pairs :
  exists cc cc',
    Release (MkConnection (MkSocket 20 true) false (MkHost 5)) pairs_cached
    = Some (cc, true, [EvSignalPurge]) /\
    CachedSockets cc = 11 /\
    PurgeCache cc = Some (cc', []) /\
    CachedSockets cc' = 11.
Proof.
  do 2 eexists. split; [vm_compute; reflexivity|].
  split; [reflexivity|]. split; [vm_compute; reflexivity|]. reflexivity.
Qed.

End Purging.

(** ** The cooperative BIO: cancellable reads *)

Section CancellableRead.

Import ContBIO.






Definition canceled : Turn := MkTurn true (MkIOStatus 0 0).



(** The timeout from 10 ms on: the growth is 1.5 rounded down, and the
    twelfth timed-out poll reaches the cap. *)
Lemma timeouts_from_10ms :
  map (timeout_after 10000) (seq 0 14)
  = [10000; 15000; 22500; 33750; 50625; 75937; 113905; 170857; 256285;
     384427; 576640; 864960; 1000000; 1000000].
Proof. vm_compute. reflexivity. Qed.

End CancellableRead.

(** ** The server: a dropped request is answered with 503 *)

Section DroppedRequest.

Import Server.
Local Open Scope string_scope.

Variable gzip : string -> option string.






End DroppedRequest.



(** * Further properties *)

(** ** The input governor under load *)

Section GovernorLoad.

Import InputConnections.

(** X1: the keep-alive timeout never grows with the number of live sockets, and
    from the hard limit on it is the lower bound: for limits whose band
    times the upper bound fits [size_t], more sockets give at most the
    same timeout, and a count at or above the hard limit gives
    [MinUnusedConnKeepaliveTimeout]. *)
Theorem keepalive_timeout_antitone limits mx mn c1 c2 :
  wf (MkInputConnections limits c1 mx mn) ->
  wf (MkInputConnections limits c2 mx mn) ->
  mn <= mx ->
  Hard limits - Soft limits < Int.size_max ->
  mx * (Hard limits - Soft limits) <= Int.size_max ->
  c1 <= c2 ->
  exists v1 v2,
    UnusedConnKeepaliveTimeout (MkInputConnections limits c1 mx mn) = Some v1 /\
    UnusedConnKeepaliveTimeout (MkInputConnections limits c2 mx mn) = Some v2 /\
    v2 <= v1 /\
    (Hard limits <= c2 -> v2 = mn).
Proof.
  intros Hwf1 Hwf2 Hmm Hd Hprod Hle.
  assert (Hval : forall c, wf (MkInputConnections limits c mx mn) ->
            Soft limits < c ->
            UnusedConnKeepaliveTimeout (MkInputConnections limits c mx mn)
            = Some (Z.max (mx * Z.max 0 (Hard limits - c)
                           / (Hard limits - Soft limits + 1)) mn)
            /\ 0 <= mx * Z.max 0 (Hard limits - c)
                    / (Hard limits - Soft limits + 1) <= mx).
  { intros c Hwf Hc. rewrite timeout_above_soft by assumption.
    cbn [Limits Counter MaxUnusedConnKeepaliveTimeout
         MinUnusedConnKeepaliveTimeout].
    destruct Hwf as ((Hs0 & Hsh & Hh) & Hcr & Hmx & Hmn).
    cbn [Limits Counter MaxUnusedConnKeepaliveTimeout
         MinUnusedConnKeepaliveTimeout] in *.
    unfold Int.is_unsigned, Int.size_max in *.
    assert (0 <= mx * Z.max 0 (Hard limits - c)) by nia.
    assert (mx * Z.max 0 (Hard limits - c)
            <= mx * (Hard limits - Soft limits)) by nia.
    rewrite (to_size_small (mx * _)) by (unfold Int.is_size; lia).
    assert (Hq : 0 <= mx * Z.max 0 (Hard limits - c)
                      / (Hard limits - Soft limits + 1) <= mx).
    { split; [apply Z.div_pos; lia|].
      apply Z.div_le_upper_bound; [lia|]. nia. }
    rewrite to_unsigned_small by (unfold Int.is_unsigned; lia).
    split; [reflexivity|exact Hq]. }
  assert (Hmx : 0 <= mx) by (destruct Hwf1 as (_ & _ & [? _] & _); assumption).
  assert (Hsoft : Soft limits < Hard limits) by apply Hwf1.
  destruct (Z.leb_spec c2 (Soft limits)) as [H2|H2].
  - exists mx, mx. rewrite !timeout_at_most_soft by (assumption || cbn; lia).
    cbn. repeat split; lia.
  - destruct (Hval c2 Hwf2 H2) as [-> [Hq20 Hq2]].
    assert (Hfloor : Hard limits <= c2 ->
              Z.max (mx * Z.max 0 (Hard limits - c2)
                     / (Hard limits - Soft limits + 1)) mn = mn).
    { intros Hc. replace (Z.max 0 (Hard limits - c2)) with 0 by lia.
      rewrite Z.mul_0_r, Z.div_0_l by lia.
      destruct Hwf1 as (_ & _ & _ & [? _]). cbn in *. lia. }
    destruct (Z.leb_spec c1 (Soft limits)) as [H1|H1].
    + exists mx. eexists. rewrite timeout_at_most_soft by (assumption || cbn; lia).
      cbn. split; [reflexivity|]. split; [reflexivity|].
      split; [lia|exact Hfloor].
    + destruct (Hval c1 Hwf1 H1) as [-> [Hq10 Hq1]].
      do 2 eexists. split; [reflexivity|]. split; [reflexivity|].
      split; [|exact Hfloor].
      apply Z.max_le_compat_r. apply Z.div_le_mono; [lia|]. nia.
Qed.

Lemma keepalive_timeout_antitone_S8 :
  exists v1 v2,
    UnusedConnKeepaliveTimeout (scenario_S8 55) = Some v1 /\
    UnusedConnKeepaliveTimeout (scenario_S8 100) = Some v2 /\
    v2 <= v1 /\ v2 = 10.
Proof.
  destruct (keepalive_timeout_antitone (MkFdLimits 10 100) 120 10 55 100)
    as (v1 & v2 & H1 & H2 & Hle & Hmin);
    try (unfold wf, FdLimits.wf, Int.is_unsigned, Int.size_max; cbn; lia).
  exists v1, v2. repeat split; try assumption. apply Hmin. cbn. lia.
Defined.

End GovernorLoad.

(** ** Accepted sockets and the hard limit *)

Section Accepting.

Import InputConnections Accept.

Lemma OnAcceptFull_counter throws ic :
  0 <= Counter ic < 2 ^ 63 -> 0 <= Hard (Limits ic) ->
  Limits (fst (OnAcceptFull throws ic)) = Limits ic /\
  (snd (OnAcceptFull throws ic) = Reading ->
   Counter (fst (OnAcceptFull throws ic)) = Counter ic + 1
   /\ Counter ic < Hard (Limits ic) /\ throws = false) /\
  (snd (OnAcceptFull throws ic) <> Reading ->
   Counter (fst (OnAcceptFull throws ic)) = Counter ic) /\
  (Hard (Limits ic) <= Counter ic -> snd (OnAcceptFull throws ic) = Refused).
Proof.
  intros Hc Hh. unfold OnAcceptFull, ExceedHardLimit, TSharedSocket_ctor,
    TSharedSocket_dtor, set_counter.
  cbn [Limits Counter].
  rewrite (to_size_small (Counter ic + 1)) by (unfold Int.is_size; lia).
  rewrite ExceedLimit_max.
  destruct (Z.eqb_spec (Z.max 0 (Counter ic + 1 - Hard (Limits ic))) 0)
    as [E|N]; cbn [negb fst snd Limits Counter].
  - destruct throws; cbn [fst snd Limits Counter];
      repeat split; try congruence; try lia; intros; try lia; discriminate.
  - repeat split; try congruence; try lia; intros; try lia; discriminate.
Qed.

Lemma dtor_ctor ic : TSharedSocket_dtor (TSharedSocket_ctor ic) = ic.
Proof.
  destruct ic. unfold TSharedSocket_dtor, TSharedSocket_ctor, set_counter.
  cbn. f_equal. lia.
Qed.

(** X2: the server never has more live accepted sockets than the hard limit:
    whatever sockets arrive and go, the counter stays between zero and
    [Limits.Hard]; a socket arriving when the counter is at the limit is
    refused and not counted. *)
Theorem accepted_within_hard_limit evs ic :
  0 <= Hard (Limits ic) < 2 ^ 63 ->
  0 <= Counter ic <= Hard (Limits ic) ->
  0 <= Counter (run evs ic) <= Hard (Limits (run evs ic)) /\
  Limits (run evs ic) = Limits ic /\
  (forall throws,
     Counter (run evs ic) = Hard (Limits ic) ->
     OnAcceptFull throws (run evs ic) = (run evs ic, Refused)).
Proof.
  intros Hh Hc.
  assert (Hinv : 0 <= Counter (run evs ic) <= Hard (Limits (run evs ic))
                 /\ Limits (run evs ic) = Limits ic).
  { revert ic Hh Hc. unfold run.
    induction evs as [|ev evs IH]; intros ic Hh Hc; [cbn; split; [lia|easy]|].
    cbn [fold_left].
    assert (Hstep : 0 <= Counter (step ev ic) <= Hard (Limits ic)
                    /\ Limits (step ev ic) = Limits ic).
    { destruct ev as [throws|]; cbn [step].
      - destruct (OnAcceptFull_counter throws ic ltac:(lia) ltac:(lia))
          as (Hl & Hr & Hn & _). split; [|exact Hl].
        destruct (snd (OnAcceptFull throws ic)) eqn:E.
        + rewrite Hn by discriminate. lia.
        + destruct (Hr eq_refl) as (-> & ? & _). lia.
        + rewrite Hn by discriminate. lia.
      - destruct (Z.ltb_spec 0 (Counter ic)); cbn; split; try lia; reflexivity. }
    destruct Hstep as [Hc' Hl'].
    destruct (IH (step ev ic)) as [H1 H2]; rewrite ?Hl'; try assumption.
    split; [exact H1|]. rewrite H2. exact Hl'. }
  destruct Hinv as [Hc' Hl']. split; [exact Hc'|]. split; [exact Hl'|].
  intros throws Hfull.
  unfold OnAcceptFull, ExceedHardLimit.
  cbn [TSharedSocket_ctor set_counter Limits Counter].
  rewrite (to_size_small (Counter (run evs ic) + 1))
    by (unfold Int.is_size; lia).
  rewrite ExceedLimit_max, Hl', Hfull.
  destruct (Z.eqb_spec
              (Z.max 0 (Hard (Limits ic) + 1 - Hard (Limits ic))) 0); [lia|].
  cbn [negb]. rewrite dtor_ctor. reflexivity.
Qed.

End Accepting.

Lemma accepted_within_hard_limit_two :
  0 <= InputConnections.Counter
         (Accept.run
            [SockAccept false; SockAccept false; SockAccept false; SockDrop]
            (InputConnections.MkInputConnections (MkFdLimits 1 2) 0 120 10))
    <= 2.
Proof.
  exact (proj1 (accepted_within_hard_limit
                  [SockAccept false; SockAccept false; SockAccept false;
                   SockDrop]
                  (InputConnections.MkInputConnections (MkFdLimits 1 2) 0 120 10)
                  ltac:(cbn; lia) ltac:(cbn; lia))).
Defined.

(** ** Certificates: alternative names come first *)

Section AltNames.

Import HostName.

(** X3: a certificate that carries a subject-alt-name extension is judged by
    its DNS alternative names alone: it passes exactly when one of them
    matches the host, and its common name is never looked at; only a
    certificate without the extension is judged by its common name. *)
Theorem CheckCertHostname_alt_names_first names cn hostname :
  CheckCertHostname (MkX509 (Some names) cn) hostname
  = existsb (fun name => match name with
                         | GEN_DNS dnsName => MatchDomainName dnsName hostname
                         | GEN_OTHER => false
                         end) names
  /\ CheckCertHostname (MkX509 None cn) hostname
     = match cn with
       | Some commonName => MatchDomainName commonName hostname
       | None => false
       end.
Proof.
  unfold CheckCertHostname, MatchCertAltNames, MatchCertCommonName.
  cbn [subject_alt_name commonName]. split.
  - destruct (existsb _ names); reflexivity.
  - destruct cn as [c|]; [|reflexivity].
    destruct (MatchDomainName c hostname); reflexivity.
Qed.

End AltNames.

(** ** The user-info field *)

Section UserInfoPairs.

Import HostName UserInfo.
Local Open Scope string_scope.

(** [NextTok] cuts at a delimiter that the text before it does not have. *)
Lemma NextTok_app delim a b :
  free_of delim a = true ->
  NextTok delim (a ++ String delim b) = (a, b).
Proof.
  unfold free_of. induction a as [|c a IH]; intros Ha.
  - change (NextTok delim (String delim b) = ("", b)). cbn [NextTok].
    rewrite Ascii.eqb_refl. reflexivity.
  - cbn [list_ascii_of_string existsb] in Ha.
    apply negb_true_iff, orb_false_iff in Ha as [Hc Ha].
    change (NextTok delim (String c (a ++ String delim b)) = (String c a, b)).
    cbn [NextTok]. rewrite Hc, IH; [reflexivity|].
    apply negb_true_iff. exact Ha.
Qed.

(** Without the delimiter the whole text is the token. *)
Lemma NextTok_whole delim a :
  free_of delim a = true -> NextTok delim a = (a, "").
Proof.
  unfold free_of. induction a as [|c a IH]; intros Ha; [reflexivity|].
  cbn [list_ascii_of_string existsb] in Ha.
  apply negb_true_iff, orb_false_iff in Ha as [Hc Ha].
  cbn [NextTok]. rewrite Hc, IH; [reflexivity|].
  apply negb_true_iff. exact Ha.
Qed.

Lemma ParseUserInfo_unfold kws cert pvtKey :
  ParseUserInfo kws cert pvtKey =
    match kws with
    | EmptyString => (cert, pvtKey)
    | _ =>
        let name := fst (NextTok "=" kws) in
        let kws1 := snd (NextTok "=" kws) in
        let value := fst (NextTok ";" kws1) in
        let kws2 := snd (NextTok ";" kws1) in
        if String.eqb "cert" name then ParseUserInfo kws2 value pvtKey
        else if String.eqb "key" name then ParseUserInfo kws2 cert value
        else ParseUserInfo kws2 cert pvtKey
    end.
Proof. destruct kws; simp ParseUserInfo; reflexivity. Qed.

Lemma app_eq_delim_nonempty a d b : a ++ String d b <> "".
Proof. destruct a; discriminate. Qed.

(** What one pair does, whatever follows it. *)
Definition assign (name value cert pvtKey : string) : string * string :=
  if String.eqb "cert" name then (value, pvtKey)
  else if String.eqb "key" name then (cert, value)
  else (cert, pvtKey).

Lemma ParseUserInfo_step name value rest cert pvtKey :
  free_of "=" name = true -> free_of ";" value = true ->
  ParseUserInfo (name ++ "=" ++ value ++ ";" ++ rest) cert pvtKey
  = ParseUserInfo rest (fst (assign name value cert pvtKey))
      (snd (assign name value cert pvtKey)).
Proof.
  intros Hn Hv. rewrite ParseUserInfo_unfold.
  change (name ++ "=" ++ value ++ ";" ++ rest)
    with (name ++ String "=" (value ++ String ";" rest)).
  destruct (name ++ String "=" (value ++ String ";" rest)) eqn:E.
  { exfalso. exact (app_eq_delim_nonempty _ _ _ E). }
  rewrite <- E. cbv zeta. rewrite (NextTok_app "=" name _ Hn). cbn [fst snd].
  rewrite (NextTok_app ";" value _ Hv). cbn [fst snd]. unfold assign.
  destruct (String.eqb "cert" name); [reflexivity|].
  destruct (String.eqb "key" name); reflexivity.
Qed.

(** The last pair needs no [;]. *)
Lemma ParseUserInfo_last name value cert pvtKey :
  free_of "=" name = true -> free_of ";" value = true ->
  ParseUserInfo (name ++ "=" ++ value) cert pvtKey
  = assign name value cert pvtKey.
Proof.
  intros Hn Hv. rewrite ParseUserInfo_unfold.
  change (name ++ "=" ++ value) with (name ++ String "=" value).
  destruct (name ++ String "=" value) eqn:E.
  { exfalso. exact (app_eq_delim_nonempty _ _ _ E). }
  rewrite <- E. cbv zeta. rewrite (NextTok_app "=" name _ Hn). cbn [fst snd].
  rewrite (NextTok_whole ";" value Hv). cbn [fst snd]. unfold assign.
  destruct (String.eqb "cert" name); [|destruct (String.eqb "key" name)];
    simp ParseUserInfo; reflexivity.
Qed.

(** X4: a pair [name=value;] sets the certificate when the name is [cert], the
    key when it is [key], and nothing otherwise; the rest of the field is
    then read with those values, so a later pair overrides an earlier one
    and pairs with other names are skipped; the last pair needs no [;]. *)
Theorem ParseUserInfo_pair name value rest cert pvtKey :
  free_of "=" name = true -> free_of ";" value = true ->
  ParseUserInfo (name ++ "=" ++ value ++ ";" ++ rest) cert pvtKey
  = ParseUserInfo rest (fst (assign name value cert pvtKey))
      (snd (assign name value cert pvtKey)) /\
  ParseUserInfo (name ++ "=" ++ value) cert pvtKey
  = assign name value cert pvtKey.
Proof.
  intros Hn Hv. split.
  - apply ParseUserInfo_step; assumption.
  - apply ParseUserInfo_last; assumption.
Qed.

Lemma ParseUserInfo_pair_unknown :
  ParseUserInfo ("proxy" ++ "=" ++ "none" ++ ";" ++ "key=b.pem") "a.pem" ""
  = ("a.pem", "b.pem").
Proof.
  rewrite (proj1 (ParseUserInfo_pair "proxy" "none" "key=b.pem" "a.pem" ""
                    eq_refl eq_refl)).
  reflexivity.
Defined.

(** X5: a field written as [cert=<c>;key=<k>] reads back as [c] and [k], for
    any paths without a semicolon, whatever the values were before. *)
Theorem ParseUserInfo_round_trip c k cert pvtKey :
  free_of ";" c = true -> free_of ";" k = true ->
  ParseUserInfo ("cert=" ++ c ++ ";key=" ++ k) cert pvtKey = (c, k).
Proof.
  intros Hc Hk.
  change ("cert=" ++ c ++ ";key=" ++ k)
    with ("cert" ++ "=" ++ c ++ ";" ++ ("key" ++ "=" ++ k)).
  rewrite ParseUserInfo_step by (reflexivity || assumption).
  rewrite ParseUserInfo_last by (reflexivity || assumption).
  reflexivity.
Qed.

Lemma ParseUserInfo_round_trip_pem :
  ParseUserInfo ("cert=" ++ "/etc/c=1.pem" ++ ";key=" ++ "/etc/k.pem")
    "old" "old"
  = ("/etc/c=1.pem", "/etc/k.pem").
Proof.
  exact (ParseUserInfo_round_trip "/etc/c=1.pem" "/etc/k.pem" "old" "old"
           eq_refl eq_refl).
Defined.

End UserInfoPairs.

(** ** The client's handshake *)

Section ClientHandshake.

Import HostName ClientStream.

Ltac handshake_calls :=
  repeat rewrite in_app_iff; cbn [In]; intuition (discriminate || congruence).

(** X6: a handshake that returns normally has completed the TLS handshake and,
    when host names are checked, has seen a peer certificate that passes
    [CheckCertHostname] for the host; with the check off it never asks for
    the certificate.  It ends with a system error exactly when it got as
    far as [SSL_do_handshake] and that returned the cancellation sentinel
    [-42], and the error is then [ECANCELED], 125. *)
Theorem Handshake_checks_host check Host UserInfo ssl :
  (fst (Handshake check Host UserInfo ssl) = None ->
   do_handshake_ret ssl = 1 /\
   (check = true ->
    exists peerCert, peer_certificate ssl = Some peerCert
                     /\ CheckCertHostname peerCert Host = true)) /\
  (check = false ->
   ~ In SSL_get_peer_certificate (snd (Handshake check Host UserInfo ssl))) /\
  (forall status,
     fst (Handshake check Host UserInfo ssl) = Some (TSystemError status) <->
     status = 125 /\
     In SSL_do_handshake (snd (Handshake check Host UserInfo ssl)) /\
     do_handshake_ret ssl = -42).
Proof.
  unfold Handshake, ECANCELED, ContBIO.SSL_RVAL_TIMEOUT.
  destruct (Z.eqb_spec (set_tlsext_host_name_ret ssl) 1) as [_|_]; cbn [negb].
  2: { cbn [fst snd]. split; [discriminate|]. split; [intros _; handshake_calls|].
       intros status. split; [discriminate|]. intros (_ & Hin & _).
       revert Hin. handshake_calls. }
  destruct (UserInfo.ParseUserInfo UserInfo "" "") as [cert pvtKey].
  set (calls1 := if String.eqb cert "" then _ else _).
  assert (Hc1 : ~ In SSL_get_peer_certificate calls1
                /\ ~ In SSL_do_handshake calls1).
  { subst calls1. destruct (String.eqb cert ""); split; handshake_calls. }
  destruct Hc1 as [Hp1 Hd1].
  destruct (negb (String.eqb cert "")
            && negb (use_certificate_file_ret ssl =? 1)).
  { cbn [fst snd]. split; [discriminate|]. split; [intros _; exact Hp1|].
    intros status. split; [discriminate|]. intros (_ & Hin & _). tauto. }
  set (key_step := if String.eqb pvtKey "" then _ else _).
  assert (Hk : ~ In SSL_get_peer_certificate (snd key_step)
               /\ ~ In SSL_do_handshake (snd key_step)
               /\ (fst key_step = None
                   \/ exists e, fst key_step = Some (TSslException e))).
  { subst key_step. destruct (String.eqb pvtKey "").
    { cbn [fst snd]. repeat split; try assumption. left. reflexivity. }
    destruct (negb (use_PrivateKey_file_ret ssl =? 1)).
    { cbn [fst snd]. split; [handshake_calls|]. split; [handshake_calls|].
      right. eexists. reflexivity. }
    destruct (negb (check_private_key_ret ssl =? 1)).
    { cbn [fst snd]. split; [handshake_calls|]. split; [handshake_calls|].
      right. eexists. reflexivity. }
    cbn [fst snd]. split; [handshake_calls|]. split; [handshake_calls|].
    left. reflexivity. }
  destruct key_step as [[e|] calls2]; cbn [fst snd] in Hk;
    destruct Hk as (Hp2 & Hd2 & Hk).
  { destruct Hk as [[=]|(e' & [= ->])].
    cbn [fst snd]. split; [discriminate|]. split; [intros _; exact Hp2|].
    intros status. split; [discriminate|]. intros (_ & Hin & _). tauto. }
  clear Hk.
  destruct (Z.eqb_spec (do_handshake_ret ssl) 1) as [E1|N1]; cbn [negb].
  2: { destruct (Z.eqb_spec (do_handshake_ret ssl) (-42)) as [E2|N2];
         cbn [fst snd].
       - split; [discriminate|]. split; [intros _; handshake_calls|].
         intros status. split.
         + intros [= <-]. repeat split; [handshake_calls|exact E2].
         + intros (-> & _ & _). reflexivity.
       - split; [discriminate|]. split; [intros _; handshake_calls|].
         intros status. split; [discriminate|]. intros (_ & _ & E). lia. }
  destruct check.
  - destruct (peer_certificate ssl) as [peerCert|].
    + destruct (CheckCertHostname peerCert Host) eqn:Hchk; cbn [fst snd].
      * split; [intros _; split; [exact E1|]; intros _; exists peerCert;
                split; [reflexivity|exact Hchk]|].
        split; [discriminate|]. intros status. split; [discriminate|intros (_ & _ & E); lia].
      * split; [discriminate|]. split; [discriminate|].
        intros status. split; [discriminate|intros (_ & _ & E); lia].
    + cbn [fst snd]. split; [discriminate|]. split; [discriminate|].
      intros status. split; [discriminate|intros (_ & _ & E); lia].
  - cbn [fst snd]. split; [intros _; split; [exact E1|discriminate]|].
    split; [intros _; handshake_calls|].
    intros status. split; [discriminate|intros (_ & _ & E); lia].
Qed.

End ClientHandshake.

(** ** Acquiring from the cache *)

Section Acquiring.

Import ConnCache Pool.

Lemma Get_set_queue i q cc j :
  Get (Lst_ (set_queue i q cc)) j = if decide (i = j) then q else Get (Lst_ cc) j.
Proof. unfold set_queue. cbn [Lst_]. apply Get_insert. Qed.

(** Draining stops at the first socket still open. *)
Lemma drain_first_live dead s rest cached :
  forallb (fun d => negb (NotClosedByOtherSide d)) dead = true ->
  NotClosedByOtherSide s = true ->
  drain (dead ++ s :: rest) cached
  = (Some s, rest, cached - Z.of_nat (length dead) - 1).
Proof.
  intros Hdead Hs. revert cached.
  induction dead as [|d dead IH]; intros cached; cbn [app drain length].
  - rewrite Hs. f_equal. cbn. lia.
  - cbn [forallb] in Hdead. apply andb_true_iff in Hdead as [Hd Hdead].
    apply negb_true_iff in Hd. rewrite Hd, IH by assumption. f_equal. lia.
Qed.

(** Draining a queue of closed sockets empties it. *)
Lemma drain_all_dead dead cached :
  forallb (fun d => negb (NotClosedByOtherSide d)) dead = true ->
  drain dead cached = (None, [], cached - Z.of_nat (length dead)).
Proof.
  intros Hdead. revert cached.
  induction dead as [|d dead IH]; intros cached; cbn [drain length].
  - f_equal. lia.
  - cbn [forallb] in Hdead. apply andb_true_iff in Hdead as [Hd Hdead].
    apply negb_true_iff in Hd. rewrite Hd, IH by assumption. f_equal. lia.
Qed.

(** What draining finds is open, and the counter drops by what left the
    queue. *)
Lemma drain_spec q :
  forall cached found q' cached',
    drain q cached = (found, q', cached') ->
    cached' = cached - (Z.of_nat (length q) - Z.of_nat (length q')) /\
    match found with
    | Some s => NotClosedByOtherSide s = true
    | None => q' = []
    end.
Proof.
  induction q as [|d q IH]; intros cached found q' cached'; cbn [drain].
  - intros [= <- <- <-]. split; [cbn; lia|reflexivity].
  - destruct (NotClosedByOtherSide d) eqn:Hd.
    + intros [= <- <- <-]. split; [cbn [length]; lia|exact Hd].
    + intros H. destruct (IH _ _ _ _ H) as [-> Hf].
      split; [cbn [length]; lia|exact Hf].
Qed.

(** X7: a cached connection is reused: when the cache is within its hard limit
    and the host's queue holds a socket that is still open, [Connect]
    returns the first such socket, marked reused, and opens no socket; the
    closed sockets in front of it are discarded, each coming off the cached
    count; the other queues are untouched; and a spare connector is
    started exactly when the host's queue is left empty. *)
Theorem Connect_reuses_first_live env msgAddr addr cc dead s rest :
  ExceedHardLimit cc = 0 ->
  ConnList cc addr = dead ++ s :: rest ->
  forallb (fun d => negb (NotClosedByOtherSide d)) dead = true ->
  NotClosedByOtherSide s = true ->
  exists cc' evs,
    Connect env msgAddr addr cc
    = Some (Some (MkConnection s true addr), None, cc', evs) /\
    ActiveSockets cc' = ActiveSockets cc + 1 /\
    CachedSockets cc' = CachedSockets cc - Z.of_nat (length dead) - 1 /\
    ConnList cc' addr = rest /\
    (forall i, i <> Id addr -> Get (Lst_ cc') i = Get (Lst_ cc) i) /\
    opens_socket evs = false /\
    evs = match rest with
          | [] => [if has_cont env then EvCreateJob addr None
                   else EvScheduleJob addr]
          | _ => []
          end.
Proof.
  intros Hlim Hq Hdead Hs. unfold Connect. rewrite Hlim. cbn [Z.eqb negb].
  rewrite Hq, (drain_first_live dead s rest _ Hdead Hs).
  destruct (dead ++ s :: rest) eqn:E; [destruct dead; discriminate|].
  do 2 eexists. split; [reflexivity|].
  cbn [ActiveSockets CachedSockets set_counters set_queue].
  split; [reflexivity|]. split; [reflexivity|].
  unfold ConnList. cbn [Lst_ set_counters set_queue]. rewrite Get_insert.
  destruct (decide (Id addr = Id addr)); [|congruence].
  split; [reflexivity|]. split.
  { intros i Hi. rewrite Get_insert.
    destruct (decide (Id addr = i)); [congruence|reflexivity]. }
  destruct rest; cbn; [destruct (has_cont env)|]; split; reflexivity.
Qed.

(** A cache of three sockets to host 7, the first closed by its peer. *)
Definition stale_front : TConnCache :=
  MkConnCache (MkFdLimits 10 100) 0 3
    (<[7 := [MkSocket 4 false; MkSocket 5 true; MkSocket 6 true]]> ∅)
    false 7 false.

Lemma Connect_reuses_first_live_stale :
  exists cc' evs,
    Connect connecting_env "host:443" (MkHost 7) stale_front
    = Some (Some (MkConnection (MkSocket 5 true) true (MkHost 7)), None,
            cc', evs) /\
    CachedSockets cc' = 1 /\ ConnList cc' (MkHost 7) = [MkSocket 6 true]
    /\ evs = [].
Proof.
  destruct (Connect_reuses_first_live connecting_env "host:443" (MkHost 7)
              stale_front [MkSocket 4 false] (MkSocket 5 true)
              [MkSocket 6 true] eq_refl eq_refl eq_refl eq_refl)
    as (cc' & evs & Hrun & _ & Hc & Hq & _ & _ & Hevs).
  exists cc', evs. repeat split; assumption.
Defined.

Lemma poll_checkpoints_app a b :
  poll_checkpoints (a ++ b) = poll_checkpoints a ++ poll_checkpoints b.
Proof.
  induction a as [|e a IH]; [reflexivity|].
  destruct e; cbn [app poll_checkpoints]; rewrite IH; reflexivity.
Qed.

Lemma opens_socket_app a b :
  opens_socket (a ++ b) = opens_socket a || opens_socket b.
Proof. unfold opens_socket. apply existsb_app. Qed.

(** The polls of the connect loop follow the doubling schedule. *)
Lemma connect_loop_schedule env addr fuel :
  forall k ret delay res cc evs e cc' evs',
    connect_loop fuel env addr k ret delay (Z.min 10000 delay) res cc evs
    = Some (e, cc', evs') ->
    opens_socket evs' = opens_socket evs /\
    exists n,
      poll_checkpoints evs'
      = poll_checkpoints evs ++ firstn n (backoff fuel delay).
Proof.
  induction fuel as [|fuel IH]; intros k ret delay res cc evs e cc' evs';
    cbn [connect_loop]; [discriminate|].
  destruct ((ret =? ETIMEDOUT) || (ret =? EINTR)) eqn:Hret; cbn [andb].
  2: { intros [= <- <- <-]. split; [reflexivity|]. exists O.
       cbn. rewrite app_nil_r. reflexivity. }
  cbn [backoff]. destruct (Z.min 10000 delay <? 10000) eqn:Hcp.
  2: { intros [= <- <- <-]. split; [reflexivity|]. exists O.
       cbn. rewrite app_nil_r. reflexivity. }
  assert (Hpoll : forall cc1,
    (if PollD_ret env k =? 0
     then Some (Connected res, others env (S k) cc1,
                evs ++ [EvPollD (Z.min 10000 (delay + delay))])
     else connect_loop fuel env addr (S k) (PollD_ret env k) (delay + delay)
            (Z.min 10000 (delay + delay)) res (others env (S k) cc1)
            (evs ++ [EvPollD (Z.min 10000 (delay + delay))]))
    = Some (e, cc', evs') ->
    opens_socket evs' = opens_socket evs /\
    exists n,
      poll_checkpoints evs'
      = poll_checkpoints evs
        ++ firstn n (Z.min 10000 (delay + delay)
                     :: backoff fuel (delay + delay))).
  { intros cc1. destruct (PollD_ret env k =? 0).
    - intros [= <- <- <-]. split.
      + rewrite opens_socket_app. cbn. apply orb_false_r.
      + exists 1%nat. rewrite poll_checkpoints_app. reflexivity.
    - intros H. destruct (IH _ _ _ _ _ _ _ _ _ H) as [Ho [n Hn]]. split.
      + rewrite Ho, opens_socket_app. cbn. apply orb_false_r.
      + exists (S n). rewrite Hn, poll_checkpoints_app, <- app_assoc.
        reflexivity. }
  destruct (Dequeue addr cc) as [[res2 cc1]|]; [|apply Hpoll].
  destruct (NotClosedByOtherSide res2); [|apply Hpoll].
  intros [= <- <- <-]. split.
  - rewrite opens_socket_app. cbn. apply orb_false_r.
  - exists O. rewrite poll_checkpoints_app. cbn. reflexivity.
Qed.

(** X8: acquiring backs off and gives up: whatever the network answers, the
    [PollD] calls of one [Connect] have the checkpoints 16, 32, ..., 8192 ms
    and at last 10000 ms after its start, in this order and at most these
    eleven, so that no poll waits beyond the ten-second deadline. *)
Theorem Connect_poll_schedule env msgAddr addr cc conn e cc' evs :
  Connect env msgAddr addr cc = Some (conn, e, cc', evs) ->
  exists n,
    poll_checkpoints evs
    = firstn n [16; 32; 64; 128; 256; 512; 1024; 2048; 4096; 8192; 10000].
Proof.
  unfold Connect.
  destruct (negb (ExceedHardLimit cc =? 0));
    [intros [= <- <- <- <-]; exists O; reflexivity|].
  destruct (drain (ConnList cc addr) (CachedSockets cc)) as [[found q'] cached'].
  destruct found as [res|].
  { intros [= <- <- <- <-]. exists O.
    destruct (length q' =? 0)%nat; [destruct (has_cont env)|]; reflexivity. }
  destruct (negb (has_cont env));
    [intros [= <- <- <- <-]; exists O; reflexivity|].
  destruct (ConnectD_ret env =? 0).
  { intros [= <- <- <- <-]. exists O. reflexivity. }
  destruct (connect_loop _ _ _ _ _ _ _ _ _ _) as [[[end_ cc3] evs']|] eqn:Hloop;
    [|discriminate].
  change 8 with (Z.min 10000 8) in Hloop at 2.
  destruct (connect_loop_schedule _ _ _ _ _ _ _ _ _ _ _ _ Hloop) as [_ [n Hn]].
  intros H. exists n.
  assert (Hevs : poll_checkpoints evs = poll_checkpoints evs').
  { destruct end_; injection H as <- <- <- <-; [|reflexivity].
    rewrite poll_checkpoints_app. cbn. apply app_nil_r. }
  rewrite Hevs, Hn. reflexivity.
Qed.

(** A caller whose every poll times out. *)
Definition unreachable_env : ConnectEnv :=
  MkConnectEnv true true (MkSocket 9 true) ETIMEDOUT (fun _ => ETIMEDOUT)
    (fun _ cc => cc).

Lemma Connect_poll_schedule_unreachable :
  exists n evs cc',
    Connect unreachable_env "host:443" (MkHost 7) one_in_flight
    = Some (None, Some (CanNotConnect "host:443"), cc', evs) /\
    poll_checkpoints evs
    = firstn n [16; 32; 64; 128; 256; 512; 1024; 2048; 4096; 8192; 10000]
    /\ n = 11%nat.
Proof.
  destruct (Connect unreachable_env "host:443" (MkHost 7) one_in_flight)
    as [[[[conn e] cc'] evs]|] eqn:Hrun; [|vm_compute in Hrun; discriminate].
  destruct (Connect_poll_schedule _ _ _ _ _ _ _ _ Hrun) as [n Hn].
  vm_compute in Hrun. injection Hrun as <- <- <- <-.
  exists 11%nat. do 2 eexists. split; [reflexivity|]. split; reflexivity.
Defined.


(** A caller without a coroutine. *)
Definition direct_env : ConnectEnv :=
  MkConnectEnv false true (MkSocket 9 true) 0 (fun _ => 0) (fun _ cc => cc).


End Acquiring.

(** ** Releasing into the cache *)

Section Releasing.

Import ConnCache Pool.

(** The cache as [Release] leaves it, the purge lock apart. *)
Definition released (conn : TConnection) (cc : TConnCache) : TConnCache :=
  if ExceedHardLimit cc =? 0 then
    let i := Id (Host conn) in
    set_queue i (ConnList cc (Host conn) ++ [Socket conn])
      (set_counters (ActiveSockets cc - 1) (CachedSockets cc + 1)
         (set_max_id (Z.max (MaxConnId_ cc) i) cc))
  else cc.

(** The limits leave room for the purger's arithmetic: the band plus one
    does not wrap. *)
Definition band_fits (cc : TConnCache) : Prop :=
  Hard (Limits cc) - Soft (Limits cc) < Int.size_max.

(** A suggestion either signals and keeps the lock, or changes nothing. *)
Lemma SuggestPurgeCache_cases cc cc' evs :
  SuggestPurgeCache cc = Some (cc', evs) ->
  (evs = [EvSignalPurge] /\ InPurging_ cc = false
   /\ cc' = set_purging true cc)
  \/ (evs = [] /\ cc' = cc).
Proof.
  unfold SuggestPurgeCache. destruct (InPurging_ cc) eqn:Hp.
  { intros [= <- <-]. right. split; reflexivity. }
  destruct (_ <? _); [|intros [= <- <-]; right; split; reflexivity].
  destruct (Int.size_div _ _); [|discriminate].
  destruct (ActiveSockets cc + 1 =? 0); [discriminate|].
  destruct (256 <=? _); intros [= <- <-].
  - left. repeat split.
  - right. split; reflexivity.
Qed.

Lemma SuggestPurgeCache_returns cc :
  FdLimits.wf (Limits cc) -> band_fits cc -> 0 <= ActiveSockets cc ->
  exists r, SuggestPurgeCache cc = Some r.
Proof.
  intros Hl Hb Ha. unfold SuggestPurgeCache, band_fits in *.
  destruct (InPurging_ cc); [eexists; reflexivity|].
  destruct (_ <? _); [|eexists; reflexivity].
  rewrite (Delta_wf _ Hl). destruct Hl as (? & ? & ?).
  unfold Int.size_max in *.
  rewrite (to_size_small (Hard (Limits cc) - Soft (Limits cc) + 1))
    by (unfold Int.is_size; lia).
  rewrite size_div_some by lia.
  destruct (Z.eqb_spec (ActiveSockets cc + 1) 0); [lia|].
  destruct (256 <=? _); eexists; reflexivity.
Qed.

Lemma released_limits conn cc : Limits (released conn cc) = Limits cc.
Proof. unfold released. destruct (_ =? _); reflexivity. Qed.

(** What [Release] returns, for a connection that counts as active. *)
Lemma Release_cases conn cc :
  FdLimits.wf (Limits cc) -> band_fits cc -> 1 <= ActiveSockets cc ->
  exists p evs,
    Release conn cc
    = Some (set_purging p (released conn cc), ExceedHardLimit cc =? 0, evs)
    /\ (evs = [] \/ evs = [EvSignalPurge]).
Proof.
  intros Hl Hb Ha. unfold Release.
  assert (Hsame : forall c, set_purging (InPurging_ c) c = c)
    by (intros []; reflexivity).
  assert (Hbody :
    (if ExceedHardLimit cc =? 0
     then (set_queue (Id (Host conn))
             (ConnList (set_max_id (Z.max (MaxConnId_ cc) (Id (Host conn))) cc)
                (Host conn) ++ [Socket conn])
             (set_counters
                (ActiveSockets
                   (set_max_id (Z.max (MaxConnId_ cc) (Id (Host conn))) cc) - 1)
                (CachedSockets
                   (set_max_id (Z.max (MaxConnId_ cc) (Id (Host conn))) cc) + 1)
                (set_max_id (Z.max (MaxConnId_ cc) (Id (Host conn))) cc)), true)
     else (cc, false))
    = (released conn cc, ExceedHardLimit cc =? 0)).
  { unfold released. destruct (ExceedHardLimit cc =? 0); reflexivity. }
  rewrite Hbody.
  destruct (negb (CachedSockets (released conn cc) =? 0)
            && negb (ExceedSoftLimit (released conn cc) =? 0)).
  - destruct (SuggestPurgeCache_returns (released conn cc)) as [[cc2 evs] Hr].
    + rewrite released_limits. exact Hl.
    + unfold band_fits. rewrite released_limits. exact Hb.
    + unfold released. destruct (_ =? _); cbn; lia.
    + rewrite Hr. destruct (SuggestPurgeCache_cases _ _ _ Hr)
        as [(-> & _ & ->)|(-> & ->)].
      * exists true, [EvSignalPurge]. split; [reflexivity|right; reflexivity].
      * exists (InPurging_ (released conn cc)), []. rewrite Hsame.
        split; [reflexivity|left; reflexivity].
  - exists (InPurging_ (released conn cc)), []. rewrite Hsame.
    split; [reflexivity|left; reflexivity].
Qed.

Lemma exceed_hard_zero cc :
  0 <= ActiveSockets cc -> 0 <= CachedSockets cc ->
  ActiveSockets cc + CachedSockets cc < 2 ^ 64 ->
  (ExceedHardLimit cc =? 0)
  = (ActiveSockets cc + CachedSockets cc <=? Hard (Limits cc)).
Proof.
  intros. unfold ExceedHardLimit. rewrite total_sockets_small by assumption.
  rewrite ExceedLimit_max.
  destruct (Z.eqb_spec (Z.max 0 (ActiveSockets cc + CachedSockets cc
                                 - Hard (Limits cc))) 0);
    destruct (Z.leb_spec (ActiveSockets cc + CachedSockets cc)
                (Hard (Limits cc))); lia || reflexivity.
Qed.

(** X10: releasing keeps the books: a connection released while the sockets in
    use and cached do not exceed the hard limit goes to the back of its
    host's queue, moving one socket from the active to the cached count
    and raising [MaxConnId_] to its host's id if that is higher; released
    beyond the limit it is dropped, and its destructor takes it off the
    active count.  Either way no other queue changes. *)
Theorem Release_accounting conn cc :
  wf cc -> band_fits cc -> 1 <= ActiveSockets cc ->
  exists cc1 taken evs,
    Release conn cc = Some (cc1, taken, evs) /\
    taken = (ActiveSockets cc + CachedSockets cc <=? Hard (Limits cc)) /\
    ActiveSockets (DestroyConnection taken cc1) = ActiveSockets cc - 1 /\
    CachedSockets (DestroyConnection taken cc1)
    = CachedSockets cc + (if taken then 1 else 0) /\
    ConnList (DestroyConnection taken cc1) (Host conn)
    = ConnList cc (Host conn) ++ (if taken then [Socket conn] else []) /\
    MaxConnId_ (DestroyConnection taken cc1)
    = (if taken then Z.max (MaxConnId_ cc) (Id (Host conn))
       else MaxConnId_ cc) /\
    (forall i, i <> Id (Host conn) ->
               Get (Lst_ (DestroyConnection taken cc1)) i = Get (Lst_ cc) i).
Proof.
  intros (Hl & Ha & Hc & Hm & Hq) Hb Hact.
  destruct (Release_cases conn cc Hl Hb Hact) as (p & evs & -> & _).
  do 3 eexists. split; [reflexivity|].
  rewrite exceed_hard_zero by lia. split; [reflexivity|].
  unfold released. rewrite exceed_hard_zero by lia.
  destruct (ActiveSockets cc + CachedSockets cc <=? Hard (Limits cc));
    cbn [DestroyConnection set_purging set_queue set_counters set_max_id
         ActiveSockets CachedSockets MaxConnId_ Lst_ ConnList].
  - repeat split; try lia.
    + unfold ConnList at 1.
      cbn [Lst_ set_purging set_queue set_counters set_max_id].
      rewrite Get_insert.
      destruct (decide (Id (Host conn) = Id (Host conn))); [|congruence].
      reflexivity.
    + intros i Hi. rewrite Get_insert.
      destruct (decide (Id (Host conn) = i)); [congruence|reflexivity].
  - repeat split; try lia. unfold ConnList. rewrite app_nil_r. reflexivity.
Qed.

(** One connection handed out, nothing cached. *)
Definition one_active : TConnCache :=
  MkConnCache (MkFdLimits 10 100) 1 0 ∅ false 0 false.

Lemma one_active_wf : wf one_active /\ band_fits one_active.
Proof.
  unfold wf, band_fits, FdLimits.wf, Int.size_max, one_active.
  cbn [Limits Soft Hard ActiveSockets CachedSockets MaxConnId_ Lst_].
  repeat split; try lia.
Qed.

Lemma Release_accounting_one_active :
  exists cc1 evs,
    Release (MkConnection (MkSocket 20 true) false (MkHost 5)) one_active
    = Some (cc1, true, evs) /\
    ActiveSockets cc1 = 0 /\ CachedSockets cc1 = 1 /\ MaxConnId_ cc1 = 5 /\
    ConnList cc1 (MkHost 5) = [MkSocket 20 true].
Proof.
  destruct (Release_accounting
              (MkConnection (MkSocket 20 true) false (MkHost 5)) one_active
              (proj1 one_active_wf) (proj2 one_active_wf) ltac:(cbn; lia))
    as (cc1 & taken & evs & Hrun & -> & Ha & Hc & Hq & Hm & _).
  exists cc1, evs. cbn in Hrun, Ha, Hc, Hq, Hm. repeat split; assumption.
Defined.

(** X11: the purge lock and what wakes the purger: a suggestion made while a
    purge is pending does nothing; with the lock free, a cache holding at
    least as many sockets as are in use, and more than a sixteenth of
    [min (MaxConnId_, 1024)], signals the purger and is left with
    [InPurging_] set and nothing else changed; a cache no larger than that
    sixteenth is left as it was, with [InPurging_] clear and no signal. *)
Theorem SuggestPurgeCache_lock cc :
  wf cc -> band_fits cc ->
  (InPurging_ cc = true -> SuggestPurgeCache cc = Some (cc, [])) /\
  (InPurging_ cc = false ->
   Z.min (MaxConnId_ cc) 1024 / 16 < CachedSockets cc ->
   ActiveSockets cc <= CachedSockets cc ->
   SuggestPurgeCache cc
   = Some (MkConnCache (Limits cc) (ActiveSockets cc) (CachedSockets cc)
             (Lst_ cc) true (MaxConnId_ cc) (Shutdown_ cc),
           [EvSignalPurge])) /\
  (InPurging_ cc = false ->
   CachedSockets cc <= Z.min (MaxConnId_ cc) 1024 / 16 ->
   SuggestPurgeCache cc = Some (cc, []) /\ InPurging_ cc = false).
Proof.
  intros (Hl & Ha & Hc & Hm & Hq) Hb. unfold band_fits in Hb.
  unfold SuggestPurgeCache.
  rewrite Z.shiftr_div_pow2 by lia. change (2 ^ 4) with 16.
  rewrite (to_size_small (CachedSockets cc)) by (unfold Int.is_size; lia).
  split; [intros ->; reflexivity|]. split.
  - intros -> Hbig Hidle.
    destruct (Z.ltb_spec (Z.min (MaxConnId_ cc) 1024 / 16) (CachedSockets cc));
      [|lia].
    rewrite (Delta_wf _ Hl). destruct Hl as (Hs0 & Hsh & Hh).
    unfold Int.size_max in *.
    rewrite !Z.shiftl_mul_pow2 by lia. change (2 ^ 8) with 256.
    rewrite (to_size_small ((ActiveSockets cc + 1) * 256))
      by (unfold Int.is_size; lia).
    rewrite (to_size_small (Hard (Limits cc) - Soft (Limits cc) + 1))
      by (unfold Int.is_size; lia).
    rewrite size_div_some by lia.
    destruct (Z.eqb_spec (ActiveSockets cc + 1) 0); [lia|].
    rewrite Z.quot_div_nonneg by lia.
    assert (Hclose : 0 <= (ActiveSockets cc + 1) * 256
                          / (Hard (Limits cc) - Soft (Limits cc) + 1)
                     <= (ActiveSockets cc + 1) * 256).
    { split; [apply Z.div_pos; lia|].
      apply Z.div_le_upper_bound; [lia|]. nia. }
    assert (Huse : 256 <= (CachedSockets cc + 1) * 256 / (ActiveSockets cc + 1)
                   <= (CachedSockets cc + 1) * 256).
    { split; [apply Z.div_le_lower_bound; [lia|nia]|].
      apply Z.div_le_upper_bound; [lia|]. nia. }
    rewrite (to_size_small (_ / (ActiveSockets cc + 1)))
      by (unfold Int.is_size; lia).
    rewrite to_size_small by (unfold Int.is_size; lia).
    destruct (Z.leb_spec 256
                ((ActiveSockets cc + 1) * 256
                 / (Hard (Limits cc) - Soft (Limits cc) + 1)
                 + (CachedSockets cc + 1) * 256 / (ActiveSockets cc + 1)));
      [reflexivity|lia].
  - intros -> Hsmall.
    destruct (Z.ltb_spec (Z.min (MaxConnId_ cc) 1024 / 16) (CachedSockets cc));
      [lia|split; reflexivity].
Qed.

(** One connection in use, one cached. *)
Definition one_and_one : TConnCache :=
  MkConnCache (MkFdLimits 10 100) 1 1 (<[0 := [MkSocket 3 true]]> ∅)
    false 0 false.

Lemma one_and_one_wf : wf one_and_one /\ band_fits one_and_one.
Proof.
  unfold wf, band_fits, FdLimits.wf, Int.size_max, one_and_one.
  cbn [Limits Soft Hard ActiveSockets CachedSockets MaxConnId_ Lst_].
  repeat split; try lia. intros i. rewrite Get_insert.
  destruct (decide (0 = i)); [|unfold Get; rewrite lookup_empty];
    vm_compute; reflexivity.
Qed.

Lemma SuggestPurgeCache_lock_one_and_one :
  SuggestPurgeCache one_and_one
  = Some (MkConnCache (MkFdLimits 10 100) 1 1 (<[0 := [MkSocket 3 true]]> ∅)
            true 0 false,
          [EvSignalPurge]).
Proof.
  apply (SuggestPurgeCache_lock one_and_one (proj1 one_and_one_wf)
           (proj2 one_and_one_wf)); [reflexivity|vm_compute; reflexivity|].
  cbn. lia.
Defined.



(** X13: what is released can be acquired again: a live connection released to
    a host with an empty queue, within the hard limit, is what the next
    [Connect] for that host returns, marked reused, and the counters are
    back where they were before the release. *)
Theorem Release_then_Connect env msgAddr conn cc :
  wf cc -> band_fits cc -> 1 <= ActiveSockets cc ->
  ActiveSockets cc + CachedSockets cc <= Hard (Limits cc) ->
  ConnList cc (Host conn) = [] ->
  NotClosedByOtherSide (Socket conn) = true ->
  exists cc1 evs1 cc2 evs2,
    Release conn cc = Some (cc1, true, evs1) /\
    Connect env msgAddr (Host conn) cc1
    = Some (Some (MkConnection (Socket conn) true (Host conn)), None,
            cc2, evs2) /\
    ActiveSockets cc2 = ActiveSockets cc /\
    CachedSockets cc2 = CachedSockets cc /\
    ConnList cc2 (Host conn) = [].
Proof.
  intros (Hl & Ha & Hc & Hm & Hq) Hb Hact Hroom Hempty Hlive.
  destruct (Release_cases conn cc Hl Hb Hact) as (p & evs & Hrel & _).
  rewrite exceed_hard_zero in Hrel by lia.
  destruct (Z.leb_spec (ActiveSockets cc + CachedSockets cc)
              (Hard (Limits cc))) as [_|]; [|lia].
  exists (set_purging p (released conn cc)), evs.
  assert (Hrel' : released conn cc
                  = set_queue (Id (Host conn)) [Socket conn]
                      (set_counters (ActiveSockets cc - 1)
                         (CachedSockets cc + 1)
                         (set_max_id (Z.max (MaxConnId_ cc) (Id (Host conn)))
                            cc))).
  { unfold released. rewrite exceed_hard_zero by lia.
    destruct (Z.leb_spec (ActiveSockets cc + CachedSockets cc)
                (Hard (Limits cc))); [|lia].
    rewrite Hempty. reflexivity. }
  rewrite Hrel' in *. clear Hrel'.
  set (cc1 := set_purging p _) in *.
  assert (Hq1 : ConnList cc1 (Host conn) = [Socket conn]).
  { unfold ConnList, cc1. cbn [Lst_ set_purging set_queue]. rewrite Get_insert.
    destruct (decide (Id (Host conn) = Id (Host conn))); [|congruence].
    reflexivity. }
  assert (Ha1 : ActiveSockets cc1 = ActiveSockets cc - 1) by reflexivity.
  assert (Hc1 : CachedSockets cc1 = CachedSockets cc + 1) by reflexivity.
  assert (Hl1 : Limits cc1 = Limits cc) by reflexivity.
  unfold Connect.
  rewrite exceed_hard_zero by (rewrite ?Ha1, ?Hc1; lia).
  rewrite Ha1, Hc1, Hl1, Hq1.
  destruct (Z.leb_spec (ActiveSockets cc - 1 + (CachedSockets cc + 1))
              (Hard (Limits cc))); [|lia].
  cbn [negb drain]. rewrite Hlive.
  do 2 eexists. split; [exact Hrel|]. split; [reflexivity|].
  cbn [set_queue set_counters ActiveSockets CachedSockets].
  split; [lia|]. split; [lia|].
  unfold ConnList. cbn [Lst_ set_counters set_queue]. rewrite Get_insert.
  destruct (decide (Id (Host conn) = Id (Host conn))); [|congruence].
  reflexivity.
Qed.

Lemma Release_then_Connect_one_active :
  exists cc1 evs1 cc2 evs2,
    Release (MkConnection (MkSocket 20 true) false (MkHost 5)) one_active
    = Some (cc1, true, evs1) /\
    Connect direct_env "host:443" (MkHost 5) cc1
    = Some (Some (MkConnection (MkSocket 20 true) true (MkHost 5)), None,
            cc2, evs2) /\
    ActiveSockets cc2 = 1 /\ CachedSockets cc2 = 0.
Proof.
  destruct (Release_then_Connect direct_env "host:443"
              (MkConnection (MkSocket 20 true) false (MkHost 5)) one_active
              (proj1 one_active_wf) (proj2 one_active_wf)
              ltac:(cbn; lia) ltac:(cbn; lia) eq_refl eq_refl)
    as (cc1 & evs1 & cc2 & evs2 & H1 & H2 & Ha & Hc & _).
  exists cc1, evs1, cc2, evs2. repeat split; assumption.
Defined.

End Releasing.

(** ** The cached count and the queues *)

Section Accounting.

Import ConnCache Pool.

Lemma queued_comm (z1 z2 : TConnList) (y : Z) :
  y + Z.of_nat (length z2) + Z.of_nat (length z1)
  = y + Z.of_nat (length z1) + Z.of_nat (length z2).
Proof. lia. Qed.

Lemma queued_insert lst i q :
  queued (<[i := q]> lst)
  = queued lst - Z.of_nat (length (Get lst i)) + Z.of_nat (length q).
Proof.
  unfold queued, Get. destruct (lst !! i) as [q0|] eqn:E.
  - rewrite <- (insert_delete_eq lst).
    rewrite map_fold_insert_L;
      [|intros; apply queued_comm|apply lookup_delete_eq].
    rewrite (map_fold_delete_L _ _ i q0 lst);
      [|intros; apply queued_comm|exact E].
    cbn. lia.
  - rewrite map_fold_insert_L; [|intros; apply queued_comm|exact E].
    cbn. lia.
Qed.

Lemma queued_nonneg lst : 0 <= queued lst.
Proof.
  unfold queued.
  apply (map_fold_weak_ind (fun r _ => 0 <= r)); [lia|].
  intros i q m r _ Hr. lia.
Qed.

(** No queue holds more than all of them together. *)
Lemma Get_le_queued lst i : Z.of_nat (length (Get lst i)) <= queued lst.
Proof.
  pose proof (queued_insert lst i []) as H.
  pose proof (queued_nonneg (<[i := []]> lst)). cbn [length] in H. lia.
Qed.

Lemma Release_shape conn cc cc1 taken evs :
  Release conn cc = Some (cc1, taken, evs) ->
  exists p, cc1 = set_purging p (released conn cc)
            /\ taken = (ExceedHardLimit cc =? 0).
Proof.
  unfold Release, released.
  assert (Hsame : forall c, c = set_purging (InPurging_ c) c)
    by (intros []; reflexivity).
  destruct (ExceedHardLimit cc =? 0).
  - match goal with
    | |- context [if ?b then _ else _] => destruct b
    end.
    + destruct (SuggestPurgeCache _) as [[cc2 evs2]|] eqn:Hs; [|discriminate].
      intros [= <- <- <-].
      destruct (SuggestPurgeCache_cases _ _ _ Hs) as [(_ & _ & ->)|(_ & ->)].
      * eexists. split; reflexivity.
      * eexists. split; [apply Hsame|reflexivity].
    + intros [= <- <- <-]. eexists. split; [apply Hsame|reflexivity].
  - match goal with
    | |- context [if ?b then _ else _] => destruct b
    end.
    + destruct (SuggestPurgeCache _) as [[cc2 evs2]|] eqn:Hs; [|discriminate].
      intros [= <- <- <-].
      destruct (SuggestPurgeCache_cases _ _ _ Hs) as [(_ & _ & ->)|(_ & ->)].
      * eexists. split; reflexivity.
      * eexists. split; [apply Hsame|reflexivity].
    + intros [= <- <- <-]. eexists. split; [apply Hsame|reflexivity].
Qed.

Lemma released_consistent conn cc :
  consistent cc -> consistent (released conn cc).
Proof.
  unfold consistent, released. intros H.
  destruct (ExceedHardLimit cc =? 0); [|exact H].
  cbn [CachedSockets Lst_ set_queue set_counters set_max_id].
  rewrite queued_insert. unfold ConnList. rewrite length_app. cbn [length].
  lia.
Qed.

Lemma Dequeue_consistent addr cc res2 cc1 :
  consistent cc -> Dequeue addr cc = Some (res2, cc1) -> consistent cc1.
Proof.
  unfold consistent, Dequeue, ConnList. intros H.
  destruct (Get (Lst_ cc) (Id addr)) as [|r q] eqn:E; [discriminate|].
  intros [= <- <-]. cbn [CachedSockets Lst_ set_queue set_counters].
  rewrite queued_insert, E. cbn [length]. lia.
Qed.

Lemma connect_loop_consistent env addr fuel :
  (forall k c, consistent c -> consistent (others env k c)) ->
  forall k ret delay checkpoint res cc evs e cc' evs',
    consistent cc ->
    connect_loop fuel env addr k ret delay checkpoint res cc evs
    = Some (e, cc', evs') ->
    consistent cc'.
Proof.
  intros Hothers.
  induction fuel as [|fuel IH];
    intros k ret delay checkpoint res cc evs e cc' evs' Hcc;
    cbn [connect_loop]; [discriminate|].
  destruct (_ && _); [|intros [= <- <- <-]; exact Hcc].
  assert (Hpoll : forall cc1, consistent cc1 ->
    (if PollD_ret env k =? 0
     then Some (Connected res, others env (S k) cc1,
                evs ++ [EvPollD (Z.min 10000 (delay + delay))])
     else connect_loop fuel env addr (S k) (PollD_ret env k) (delay + delay)
            (Z.min 10000 (delay + delay)) res (others env (S k) cc1)
            (evs ++ [EvPollD (Z.min 10000 (delay + delay))]))
    = Some (e, cc', evs') -> consistent cc').
  { intros cc1 H1. destruct (PollD_ret env k =? 0).
    - intros [= <- <- <-]. apply Hothers. exact H1.
    - apply IH. apply Hothers. exact H1. }
  destruct (Dequeue addr cc) as [[res2 cc1]|] eqn:Hd; [|apply Hpoll; exact Hcc].
  pose proof (Dequeue_consistent _ _ _ _ Hcc Hd) as H1.
  destruct (NotClosedByOtherSide res2); [|apply Hpoll; exact H1].
  intros [= <- <- <-]. exact H1.
Qed.

Lemma purge_loop_balance frac ids :
  forall lst st,
    p_cached (snd (purge_loop frac ids lst st))
    - queued (fst (purge_loop frac ids lst st))
    = p_cached st - queued lst.
Proof.
  induction ids as [|i ids IH]; intros lst st; [reflexivity|].
  rewrite purge_loop_cons, IH, purge_queue_cached.
  destruct (Get lst i) as [|s q] eqn:E.
  - unfold purge_queue. cbn [length]. change (Z.of_nat 0 =? 0) with true. cbn. lia.
  - rewrite queued_insert, E. lia.
Qed.

Lemma PurgeCache_shape cc cc' evs :
  PurgeCache cc = Some (cc', evs) ->
  exists frac,
    frac256 cc = Some frac /\
    cc' = MkConnCache (Limits cc) (ActiveSockets cc)
            (p_cached (snd (purge_loop frac (visited cc) (Lst_ cc)
                              (MkPurgeSt (CachedSockets cc) 0 []))))
            (fst (purge_loop frac (visited cc) (Lst_ cc)
                    (MkPurgeSt (CachedSockets cc) 0 [])))
            (InPurging_ cc) (MaxConnId_ cc) (Shutdown_ cc) /\
    evs = p_events (snd (purge_loop frac (visited cc) (Lst_ cc)
                           (MkPurgeSt (CachedSockets cc) 0 []))).
Proof.
  unfold PurgeCache. destruct (frac256 cc) as [frac|]; [|discriminate].
  destruct (purge_loop _ _ _ _) as [lst st] eqn:Hp. intros [= <- <-].
  exists frac. rewrite Hp. repeat split.
Qed.

(** X14: the cached count is the number of queued sockets, and stays so: if it
    counts what the queues hold, it still does after a [Release] (and the
    connection's destruction), after a [Connect] during whose suspensions
    the other coroutines keep the count right, and after a purge run. *)
Theorem cached_counts_queued cc :
  consistent cc ->
  (forall conn cc1 taken evs,
     Release conn cc = Some (cc1, taken, evs) ->
     consistent (DestroyConnection taken cc1)) /\
  (forall env msgAddr addr conn e cc1 evs,
     (forall k c, consistent c -> consistent (others env k c)) ->
     Connect env msgAddr addr cc = Some (conn, e, cc1, evs) ->
     consistent cc1) /\
  (forall cc1 evs, PurgeCache cc = Some (cc1, evs) -> consistent cc1).
Proof.
  intros Hcc. split; [|split].
  - intros conn cc1 taken evs Hrel.
    destruct (Release_shape _ _ _ _ _ Hrel) as (p & -> & _).
    pose proof (released_consistent conn cc Hcc) as H.
    unfold consistent in *. destruct taken; exact H.
  - intros env msgAddr addr conn e cc1 evs Hothers. unfold Connect.
    destruct (negb (ExceedHardLimit cc =? 0));
      [intros [= <- <- <- <-]; exact Hcc|].
    destruct (drain (ConnList cc addr) (CachedSockets cc))
      as [[found q'] cached'] eqn:Hd.
    destruct (drain_spec _ _ _ _ _ Hd) as [-> _].
    set (cc0 := match ConnList cc addr with
                | [] => cc
                | _ => _
                end).
    assert (H0 : consistent cc0).
    { subst cc0. destruct (ConnList cc addr) as [|s q] eqn:E; [exact Hcc|].
      unfold consistent in *. cbn [CachedSockets Lst_ set_queue set_counters].
      rewrite queued_insert. unfold ConnList in E. rewrite E. lia. }
    destruct found as [res|]; [intros [= <- <- <- <-]; exact H0|].
    destruct (negb (has_cont env)); [intros [= <- <- <- <-]; exact H0|].
    destruct (ConnectD_ret env =? 0).
    { intros [= <- <- <- <-]. apply (Hothers O cc0 H0). }
    destruct (connect_loop _ _ _ _ _ _ _ _ _ _) as [[[end_ cc3] evs']|] eqn:Hl;
      [|discriminate].
    pose proof (connect_loop_consistent env addr _ Hothers _ _ _ _ _ _ _ _ _ _
                  (Hothers O cc0 H0) Hl) as H3.
    destruct end_; intros [= <- <- <- <-]; exact H3.
  - intros cc1 evs Hrun.
    destruct (PurgeCache_shape _ _ _ Hrun) as (frac & _ & -> & _).
    unfold consistent in *. cbn [CachedSockets Lst_].
    pose proof (purge_loop_balance frac (visited cc) (Lst_ cc)
                  (MkPurgeSt (CachedSockets cc) 0 [])) as Hb.
    cbn [p_cached] in Hb. lia.
Qed.

Lemma forty_cached_consistent : consistent forty_cached.
Proof. vm_compute. reflexivity. Qed.

Lemma cached_counts_queued_forty :
  exists cc1 evs,
    PurgeCache forty_cached = Some (cc1, evs) /\ consistent cc1 /\
    CachedSockets cc1 = 11.
Proof.
  destruct (PurgeCache forty_cached) as [[cc1 evs]|] eqn:Hrun;
    [|vm_compute in Hrun; discriminate].
  exists cc1, evs. split; [reflexivity|]. split.
  - exact (proj2 (proj2 (cached_counts_queued forty_cached
                           forty_cached_consistent)) cc1 evs Hrun).
  - vm_compute in Hrun. injection Hrun as <- _. reflexivity.
Defined.

End Accounting.


(** ** The purger's pace and reach *)

Section PurgerPace.

Import ConnCache Pool.

(** With [n] sockets purged so far out of a cache that held [c0], the
    counter of processed sockets is [n] as a [ui64], and one sleep has been
    taken for every started group of 64. *)
Definition paced (c0 : Z) (st : PurgeSt) : Prop :=
  0 <= c0 - p_cached st /\
  p_processed st = Int.to_size (c0 - p_cached st) /\
  p_events st = repeat (EvSleep 10) (Z.to_nat ((c0 - p_cached st + 63) / 64)).

Lemma land_63_to_size n : Z.land (Int.to_size n) 63 = n mod 64.
Proof.
  unfold Int.to_size. change 63 with (Z.ones 6).
  rewrite Z.land_ones by lia. change (2 ^ 6) with 64.
  change (2 ^ 64) with 18446744073709551616.
  Z.to_euclidean_division_equations. lia.
Qed.

Lemma OnPurgeSocket_paced c0 st : paced c0 st -> paced c0 (OnPurgeSocket st).
Proof.
  intros (Hn & Hp & He). unfold paced, OnPurgeSocket.
  cbn [p_cached p_processed p_events]. rewrite Hp, He, land_63_to_size.
  set (n := c0 - p_cached st) in *.
  replace (c0 - (p_cached st - 1)) with (n + 1) by (subst n; lia).
  split; [lia|]. split.
  - unfold Int.to_size. rewrite Z.add_mod_idemp_l by lia. reflexivity.
  - destruct (Z.eqb_spec (n mod 64) 0) as [H0|H0].
    + replace (Z.to_nat ((n + 1 + 63) / 64))
        with (S (Z.to_nat ((n + 63) / 64)))
        by (Z.to_euclidean_division_equations; lia).
      cbn [repeat]. symmetry. apply repeat_cons.
    + replace ((n + 1 + 63) / 64) with ((n + 63) / 64)
        by (Z.to_euclidean_division_equations; lia).
      reflexivity.
Qed.

Lemma purge_dequeue_paced c0 n :
  forall q st, paced c0 st -> paced c0 (snd (purge_dequeue n q st)).
Proof.
  induction n as [|n IH]; intros [|s q] st H; cbn [purge_dequeue snd];
    try exact H.
  apply IH, OnPurgeSocket_paced, H.
Qed.

Lemma purge_queue_paced c0 frac q st :
  paced c0 st -> paced c0 (snd (purge_queue frac q st)).
Proof.
  intros H. unfold purge_queue.
  destruct (_ =? 0); [exact H|].
  destruct (_ =? 0); [|apply purge_dequeue_paced, H].
  destruct (_ <=? 2); [|apply purge_dequeue_paced, H].
  destruct q as [|res q]; [exact H|].
  destruct (NotClosedByOtherSide res); [exact H|].
  apply OnPurgeSocket_paced, H.
Qed.

Lemma purge_loop_paced c0 frac ids :
  forall lst st, paced c0 st -> paced c0 (snd (purge_loop frac ids lst st)).
Proof.
  induction ids as [|i ids IH]; intros lst st H; [exact H|].
  rewrite purge_loop_cons. apply IH, purge_queue_paced, H.
Qed.

(** X15: the purger paces itself: a purge run that takes [n] sockets out of
    the cache sleeps 10 ms exactly [ceil (n / 64)] times, once before each
    group of 64, and does nothing else that takes time. *)
Theorem PurgeCache_sleeps cc :
  wf cc ->
  exists cc' evs,
    PurgeCache cc = Some (cc', evs) /\
    0 <= CachedSockets cc - CachedSockets cc' /\
    evs = repeat (EvSleep 10)
            (Z.to_nat ((CachedSockets cc - CachedSockets cc' + 63) / 64)).
Proof.
  intros Hwf. destruct (PurgeCache_wf cc Hwf) as (frac & _ & _ & ->).
  do 2 eexists. split; [reflexivity|]. cbn [CachedSockets].
  assert (H0 : paced (CachedSockets cc) (MkPurgeSt (CachedSockets cc) 0 [])).
  { unfold paced. cbn [p_cached p_processed p_events].
    rewrite Z.sub_diag. repeat split. lia. }
  destruct (purge_loop_paced (CachedSockets cc) frac (visited cc) (Lst_ cc)
              _ H0) as (Hn & _ & He).
  split; assumption.
Qed.

Lemma PurgeCache_sleeps_forty :
  wf forty_cached /\
  exists cc' evs,
    PurgeCache forty_cached = Some (cc', evs) /\
    0 <= CachedSockets forty_cached - CachedSockets cc' /\
    evs = repeat (EvSleep 10)
            (Z.to_nat ((CachedSockets forty_cached - CachedSockets cc' + 63)
                       / 64)).
Proof.
  split; [exact forty_cached_wf|].
  exact (PurgeCache_sleeps forty_cached forty_cached_wf).
Defined.

(** X16: the purger never reaches the host with the largest id: [Release]
    raises the bound of the purge loop to the id of the host it caches a
    socket for, and the loop stops short of that bound.  So a socket that
    was released for a host whose id is the largest so far is still in its
    queue, behind the ones that were there, after any purge run that
    follows, whatever the load and whether or not its peer has closed it. *)
Theorem PurgeCache_spares_last_host conn cc cc1 evs cc2 evs2 :
  MaxConnId_ cc <= Id (Host conn) ->
  Release conn cc = Some (cc1, true, evs) ->
  PurgeCache cc1 = Some (cc2, evs2) ->
  ConnList cc2 (Host conn) = ConnList cc (Host conn) ++ [Socket conn].
Proof.
  intros Hmax Hrel Hrun.
  destruct (Release_shape _ _ _ _ _ Hrel) as (p & -> & Hhard).
  destruct (PurgeCache_shape _ _ _ Hrun) as (frac & _ & -> & _).
  unfold ConnList at 1. cbn [Lst_].
  rewrite purge_loop_unvisited.
  - unfold released. rewrite <- Hhard.
    cbn [Lst_ set_purging set_queue set_counters set_max_id].
    rewrite Get_insert. destruct (decide (Id (Host conn) = Id (Host conn)));
      [reflexivity|congruence].
  - rewrite visited_In. intros [_ [_ Hlt]]. revert Hlt.
    unfold released. rewrite <- Hhard.
    cbn [MaxConnId_ set_purging set_queue set_counters set_max_id]. lia.
Qed.

(** A closed socket cached for host 5, the largest id, outlives the purge. *)
Lemma PurgeCache_spares_last_host_closed :
  exists cc1 evs cc2 evs2,
    Release (MkConnection (MkSocket 20 false) false (MkHost 5)) one_active
    = Some (cc1, true, evs) /\
    PurgeCache cc1 = Some (cc2, evs2) /\
    ConnList cc2 (MkHost 5) = [MkSocket 20 false].
Proof.
  destruct (Release (MkConnection (MkSocket 20 false) false (MkHost 5))
              one_active) as [[[cc1 taken] evs]|] eqn:Hrel;
    [|vm_compute in Hrel; discriminate].
  assert (Ht : taken = true)
    by (vm_compute in Hrel; injection Hrel as _ <- _; reflexivity).
  subst taken.
  destruct (PurgeCache cc1) as [[cc2 evs2]|] eqn:Hrun.
  - exists cc1, evs, cc2, evs2. split; [reflexivity|]. split; [exact Hrun|].
    apply (PurgeCache_spares_last_host
             (MkConnection (MkSocket 20 false) false (MkHost 5))
             one_active cc1 evs cc2 evs2); [vm_compute; discriminate| |];
      assumption.
  - vm_compute in Hrel. injection Hrel as <- _. vm_compute in Hrun.
    discriminate.
Defined.

End PurgerPace.


(** ** The growth of the read timeout *)

Section ReadTimeout.

Import ContBIO.





End ReadTimeout.

(** ** Answering a request more than once *)

Section Answers.

Import Server.

Variable gzip : string -> option string.

(** The write job a call is to enqueue for a request with compression
    scheme [scheme] that holds stream [io]: a reply goes out gzipped, under
    the scheme's name, only when the scheme is [gzip] and the compressor
    succeeds, and as it is, under no scheme, otherwise; an error goes out
    without data, scheme or headers. *)
Definition job_of (scheme : string) (io : option Z) (c : Call) : IJob :=
  match c with
  | CallSendReply data headers =>
      match gzip data with
      | Some gzipped =>
          if String.eqb scheme "gzip"
          then TWrite gzipped "gzip" io None headers
          else TWrite data "" io None headers
      | None => TWrite data "" io None headers
      end
  | CallSendError error _ => TWrite "" "" io (Some error) ""
  end.

Lemma call_job c r srv :
  call gzip c r srv
  = (MkRequest None (CompressionScheme_ r),
     MkServer (JQ_ srv ++ [job_of (CompressionScheme_ r) (IO_ r) c])
       (streams srv)).
Proof.
  destruct r as [io scheme]. destruct c as [data headers|error text];
    cbn [call job_of CompressionScheme_ IO_]; [|reflexivity].
  unfold SendReply, Compress, Enqueue. cbn [CompressionScheme_ IO_].
  destruct (String.eqb_spec scheme "gzip") as [->|_];
    destruct (gzip data); reflexivity.
Qed.

Lemma calls_jobs cs :
  forall r srv,
    IO_ r = None ->
    calls gzip cs r srv
    = (MkRequest None (CompressionScheme_ r),
       MkServer (JQ_ srv ++ map (job_of (CompressionScheme_ r) None) cs)
         (streams srv)).
Proof.
  induction cs as [|c cs IH]; intros r srv Hr; cbn [calls map].
  - rewrite app_nil_r. destruct r, srv. cbn in *. subst. reflexivity.
  - rewrite call_job, IH by reflexivity. rewrite Hr.
    cbn [CompressionScheme_ JQ_ streams].
    rewrite <- app_assoc. reflexivity.
Qed.

(** X18: only the first answer reaches the client: the first [SendReply] or
    [SendError] on a request enqueues a write job on the request's stream
    and takes the stream out of the request; every later call still
    enqueues a write job, but one that holds no stream, and the streams
    themselves are not touched by any of the calls.  A reply is written
    gzipped, under the name [gzip], only when that is the request's scheme
    and the compressor succeeds; otherwise it is written as it is, under
    no scheme; an error is written without data, scheme or headers. *)
Theorem first_answer_takes_stream io scheme c cs srv :
  calls gzip (c :: cs) (new_request io scheme) srv
  = (MkRequest None scheme,
     MkServer
       (JQ_ srv ++ job_of scheme (Some io) c :: map (job_of scheme None) cs)
       (streams srv)).
Proof.
  cbn [calls]. rewrite call_job, calls_jobs by reflexivity.
  cbn [new_request CompressionScheme_ IO_ JQ_ streams].
  rewrite <- app_assoc. reflexivity.
Qed.

End Answers.


(** ** A request and the cache *)

Section Requests.

Import ConnCache Pool Request.

Lemma connect_loop_preserves (P : TConnCache -> Prop) env addr :
  (forall k c, P c -> P (others env k c)) ->
  (forall c res2 c1, P c -> Dequeue addr c = Some (res2, c1) -> P c1) ->
  forall fuel k ret delay checkpoint res cc evs e cc' evs',
    P cc ->
    connect_loop fuel env addr k ret delay checkpoint res cc evs
    = Some (e, cc', evs') ->
    P cc'.
Proof.
  intros Hothers Hdeq.
  induction fuel as [|fuel IH];
    intros k ret delay checkpoint res cc evs e cc' evs' Hcc;
    cbn [connect_loop]; [discriminate|].
  destruct (_ && _); [|intros [= <- <- <-]; exact Hcc].
  assert (Hpoll : forall cc1, P cc1 ->
    (if PollD_ret env k =? 0
     then Some (Connected res, others env (S k) cc1,
                evs ++ [EvPollD (Z.min 10000 (delay + delay))])
     else connect_loop fuel env addr (S k) (PollD_ret env k) (delay + delay)
            (Z.min 10000 (delay + delay)) res (others env (S k) cc1)
            (evs ++ [EvPollD (Z.min 10000 (delay + delay))]))
    = Some (e, cc', evs') -> P cc').
  { intros cc1 H1. destruct (PollD_ret env k =? 0).
    - intros [= <- <- <-]. apply Hothers. exact H1.
    - apply IH. apply Hothers. exact H1. }
  destruct (Dequeue addr cc) as [[res2 cc1]|] eqn:Hd; [|apply Hpoll; exact Hcc].
  pose proof (Hdeq _ _ _ Hcc Hd) as H1.
  destruct (NotClosedByOtherSide res2); [|apply Hpoll; exact H1].
  intros [= <- <- <-]. exact H1.
Qed.

(** [Connect] counts the connection it returns, and nothing else, among
    the active ones. *)
Lemma Connect_active env msgAddr addr cc conn e cc1 evs :
  (forall k c, ActiveSockets (others env k c) = ActiveSockets c) ->
  Connect env msgAddr addr cc = Some (conn, e, cc1, evs) ->
  ActiveSockets cc1
  = ActiveSockets cc + match conn with Some _ => 1 | None => 0 end.
Proof.
  intros Hothers. unfold Connect.
  destruct (negb (ExceedHardLimit cc =? 0)); [intros [= <- <- <- <-]; lia|].
  destruct (drain (ConnList cc addr) (CachedSockets cc))
    as [[found q'] cached'] eqn:Hd.
  set (cc0 := match ConnList cc addr with
              | [] => cc
              | _ => _
              end).
  assert (H0 : ActiveSockets cc0 = ActiveSockets cc)
    by (subst cc0; destruct (ConnList cc addr); reflexivity).
  destruct found as [res|];
    [intros [= <- <- <- <-]; cbn [ActiveSockets set_counters]; lia|].
  destruct (negb (has_cont env)); [intros [= <- <- <- <-]; lia|].
  destruct (ConnectD_ret env =? 0).
  { intros [= <- <- <- <-]. cbn [ActiveSockets set_counters].
    rewrite Hothers. lia. }
  destruct (connect_loop _ _ _ _ _ _ _ _ _ _) as [[[end_ cc3] evs']|] eqn:Hl;
    [|discriminate].
  assert (H3 : ActiveSockets cc3 = ActiveSockets cc).
  { apply (connect_loop_preserves
             (fun c => ActiveSockets c = ActiveSockets cc) env addr)
      with (4 := Hl).
    - intros k c Hc. rewrite Hothers. exact Hc.
    - intros c res2 c1 Hc. unfold Dequeue.
      destruct (ConnList c addr); [discriminate|].
      intros [= _ <-]. exact Hc.
    - rewrite Hothers. exact H0. }
  destruct end_; intros [= <- <- <- <-]; cbn [ActiveSockets set_counters]; lia.
Qed.

Lemma drain_suffix q :
  forall cached found q' cached',
    drain q cached = (found, q', cached') ->
    exists k, q' = skipn k q /\
              match found with
              | Some s => nth_error q (Nat.pred k) = Some s /\ (0 < k)%nat
              | None => True
              end.
Proof.
  induction q as [|d q IH]; intros cached found q' cached'; cbn [drain].
  - intros [= <- <- <-]. exists O. split; [reflexivity|exact I].
  - destruct (NotClosedByOtherSide d).
    + intros [= <- <- <-]. exists 1%nat. repeat split. lia.
    + intros H. destruct (IH _ _ _ _ H) as (k & -> & Hf). exists (S k).
      split; [reflexivity|].
      destruct found as [s|]; [|exact I]. destruct Hf as [Hn Hk].
      split; [|lia]. destruct k as [|k]; [lia|]. exact Hn.
Qed.

(** [Connect] takes sockets from the front of the host's queue and puts
    none in; the connection it returns is one to the host asked for. *)
Lemma Connect_queue env msgAddr addr cc conn e cc1 evs :
  (forall k c, ConnList (others env k c) addr = ConnList c addr) ->
  Connect env msgAddr addr cc = Some (conn, e, cc1, evs) ->
  (exists k, ConnList cc1 addr = skipn k (ConnList cc addr)) /\
  (forall s, conn = Some s -> Host s = addr).
Proof.
  intros Hothers. unfold Connect.
  destruct (negb (ExceedHardLimit cc =? 0)).
  { intros [= <- <- <- <-]. split; [exists O; reflexivity|discriminate]. }
  destruct (drain (ConnList cc addr) (CachedSockets cc))
    as [[found q'] cached'] eqn:Hd.
  destruct (drain_suffix _ _ _ _ _ Hd) as (k0 & -> & _).
  set (cc0 := match ConnList cc addr with
              | [] => cc
              | _ => _
              end).
  assert (H0 : exists k, ConnList cc0 addr = skipn k (ConnList cc addr)).
  { subst cc0. destruct (ConnList cc addr) as [|s q] eqn:E.
    - exists O. rewrite E. reflexivity.
    - exists k0. unfold ConnList. cbn [Lst_ set_queue set_counters].
      rewrite Get_insert. destruct (decide (Id addr = Id addr)); congruence. }
  assert (Hc : forall c a, ConnList (set_counters a (CachedSockets c) c) addr
                           = ConnList c addr) by reflexivity.
  destruct found as [res|].
  { intros [= <- <- <- <-]. rewrite Hc.
    split; [exact H0|intros s [= <-]; reflexivity]. }
  destruct (negb (has_cont env)).
  { intros [= <- <- <- <-]. split; [exact H0|discriminate]. }
  destruct (ConnectD_ret env =? 0).
  { intros [= <- <- <- <-]. rewrite Hc, Hothers.
    split; [exact H0|intros s [= <-]; reflexivity]. }
  destruct (connect_loop _ _ _ _ _ _ _ _ _ _) as [[[end_ cc3] evs']|] eqn:Hl;
    [|discriminate].
  assert (H3 : exists k, ConnList cc3 addr = skipn k (ConnList cc addr)).
  { apply (connect_loop_preserves
             (fun c => exists k, ConnList c addr = skipn k (ConnList cc addr))
             env addr) with (4 := Hl).
    - intros k c H. rewrite Hothers. exact H.
    - intros c res2 c1 [k Hk]. unfold Dequeue.
      destruct (ConnList c addr) as [|r q] eqn:E; [discriminate|].
      intros [= _ <-]. exists (S k). unfold ConnList in *.
      cbn [Lst_ set_queue set_counters]. rewrite Get_insert.
      destruct (decide (Id addr = Id addr)); [|congruence].
      change (S k) with (1 + k)%nat. rewrite <- skipn_skipn, <- Hk.
      reflexivity.
    - rewrite Hothers. exact H0. }
  destruct end_; intros [= <- <- <- <-].
  - rewrite Hc. split; [exact H3|intros s [= <-]; reflexivity].
  - split; [exact H3|discriminate].
Qed.

Lemma outcome_response x cancelled_later received headers :
  outcome x cancelled_later = (None, received, headers) ->
  exists firstLine code,
    x = Returned received headers firstLine code /\ 200 <= code <= 299.
Proof.
  destruct x as [r h f code|status what r|what r]; cbn [outcome].
  - unfold ProcessRecv.
    destruct (code <? 200) eqn:E1; [discriminate|].
    destruct (299 <? code) eqn:E2; [discriminate|]. cbn [orb].
    intros [= <- <-]. exists f, code. split; [reflexivity|lia].
  - discriminate.
  - destruct cancelled_later; discriminate.
Qed.

(** X19: a request gives its slot back: whatever happens to it (cancelled
    before it starts, no connection, no stream for its connection, an
    exception during the exchange, an error status, a response), once it
    is over the count of active sockets is what it was, provided the
    coroutines that ran during its suspensions left that count as they
    found it.  It tells its handle one thing, except that it tells it
    nothing at all exactly when it got a connection and building the
    stream for it threw. *)
Theorem DoRun_gives_slot_back cancelled env msgAddr addr stream_fails exchange
    meanwhile cancelled_later cc ns cc' evs :
  (forall k c, ActiveSockets (others env k c) = ActiveSockets c) ->
  (forall c, ActiveSockets (meanwhile c) = ActiveSockets c) ->
  DoRun cancelled env msgAddr addr stream_fails exchange meanwhile
    cancelled_later cc
  = Some (ns, cc', evs) ->
  ActiveSockets cc' = ActiveSockets cc /\
  (ns = [] \/ exists n, ns = [n]) /\
  (ns = [] <->
   cancelled = false /\
   exists s e cc1 evs1,
     Connect (from_job env) msgAddr addr cc = Some (Some s, e, cc1, evs1) /\
     stream_fails s = true).
Proof.
  intros Hothers Hmean. unfold DoRun.
  destruct cancelled.
  { intros [= <- <- <-]. split; [reflexivity|]. split; [eauto|].
    split; [discriminate|]. intros [[=] _]. }
  destruct (Connect (from_job env) msgAddr addr cc)
    as [[[[conn e] cc1] evs1]|] eqn:Hc; [|discriminate].
  pose proof (Connect_active (from_job env) _ _ _ _ _ _ _ Hothers Hc) as Ha.
  destruct conn as [s|].
  2: { intros [= <- <- <-]. split; [lia|]. split; [eauto|].
       split; [discriminate|]. intros (_ & s & e' & c1 & ev1 & [=] & _). }
  destruct (stream_fails s) eqn:Hs.
  { intros [= <- <- <-]. cbn [DestroyConnection ActiveSockets set_counters].
    split; [lia|]. split; [left; reflexivity|].
    split; [|reflexivity]. intros _. split; [reflexivity|].
    exists s, e, cc1, evs1. split; [reflexivity|exact Hs]. }
  assert (Hnot : forall n : Notification,
            [n] = [] <->
            false = false /\
            exists s0 e0 c1 ev1,
              Some (Some s, e, cc1, evs1) = Some (Some s0, e0, c1, ev1) /\
              stream_fails s0 = true).
  { intros n. split; [discriminate|].
    intros (_ & s0 & e0 & c1 & ev1 & [= <- _ _ _] & Hs0). congruence. }
  destruct (outcome (exchange s) cancelled_later) as [[error received] headers].
  destruct error as [err|].
  { intros [= <- <- <-]. cbn [DestroyConnection ActiveSockets set_counters].
    rewrite Hmean. split; [lia|]. split; [eauto|]. apply Hnot. }
  destruct (Release s (meanwhile cc1)) as [[[cc3 taken] evs2]|] eqn:Hrel;
    [|discriminate].
  intros [= <- <- <-]. split; [|split; [eauto|apply Hnot]].
  destruct (Release_shape _ _ _ _ _ Hrel) as (p & -> & ->).
  unfold released.
  destruct (ExceedHardLimit (meanwhile cc1) =? 0);
    cbn [DestroyConnection ActiveSockets set_purging set_queue set_counters
         set_max_id]; rewrite Hmean; lia.
Qed.

(** X20: a request that fails never caches its connection: a response is
    reported only for a request that was not cancelled, got a connection
    and read an answer with a status from 200 to 299, and only then is the
    connection's socket put at the back of its host's queue (unless the
    cache is over its hard limit); after any other request the host's queue
    is what it was, less the sockets [Connect] took from its front. *)
Theorem DoRun_caches_answered_only cancelled env msgAddr addr stream_fails
    exchange meanwhile cancelled_later cc n cc' evs :
  (forall k c, ConnList (others env k c) addr = ConnList c addr) ->
  (forall c, ConnList (meanwhile c) addr = ConnList c addr) ->
  DoRun cancelled env msgAddr addr stream_fails exchange meanwhile
    cancelled_later cc
  = Some ([n], cc', evs) ->
  exists k,
    if is_response n then
      cancelled = false /\
      exists s e cc1 evs1 received headers firstLine code,
        Connect (from_job env) msgAddr addr cc = Some (Some s, e, cc1, evs1) /\
        exchange s = Returned received headers firstLine code /\
        200 <= code <= 299 /\
        n = NotifyResponse received headers /\
        ConnList cc' addr
        = skipn k (ConnList cc addr)
          ++ (if ExceedHardLimit (meanwhile cc1) =? 0 then [Socket s] else [])
    else ConnList cc' addr = skipn k (ConnList cc addr).
Proof.
  intros Hothers Hmean. unfold DoRun.
  destruct cancelled; [intros [= <- <- <-]; exists O; reflexivity|].
  destruct (Connect (from_job env) msgAddr addr cc)
    as [[[[conn e] cc1] evs1]|] eqn:Hc; [|discriminate].
  destruct (Connect_queue (from_job env) _ _ _ _ _ _ _ Hothers Hc)
    as [[k Hk] Hhost].
  destruct conn as [s|]; [|intros [= <- <- <-]; exists k; exact Hk].
  destruct (stream_fails s); [discriminate|].
  destruct (outcome (exchange s) cancelled_later)
    as [[error received] headers] eqn:Ho.
  destruct error as [err|].
  { intros [= <- <- <-]. exists k. cbn [is_response].
    transitivity (ConnList (meanwhile cc1) addr); [reflexivity|].
    rewrite Hmean. exact Hk. }
  destruct (Release s (meanwhile cc1)) as [[[cc3 taken] evs2]|] eqn:Hrel;
    [|discriminate].
  intros [= <- <- <-]. exists k. cbn [is_response]. split; [reflexivity|].
  destruct (outcome_response _ _ _ _ Ho) as (f & code & Hx & Hcode).
  exists s, e, cc1, evs1, received, headers, f, code.
  repeat (split; [assumption || reflexivity || lia|]).
  destruct (Release_shape _ _ _ _ _ Hrel) as (p & -> & ->).
  pose proof (Hhost s eq_refl) as Hs.
  unfold released.
  destruct (ExceedHardLimit (meanwhile cc1) =? 0).
  - unfold ConnList at 1.
    cbn [DestroyConnection Lst_ set_purging set_queue set_counters set_max_id].
    rewrite Get_insert, Hs.
    destruct (decide (Id addr = Id addr)); [|congruence].
    rewrite Hmean, Hk. reflexivity.
  - rewrite app_nil_r.
    transitivity (ConnList (meanwhile cc1) addr); [reflexivity|].
    rewrite Hmean. exact Hk.
Qed.

(** A host that connects at once and answers [status]. *)
Definition ready_env : ConnectEnv :=
  MkConnectEnv false false (MkSocket 9 true) 0 (fun _ => 0) (fun _ cc => cc).

Definition answers (status : Z) (conn : TConnection) : Exchange :=
  Returned "pong" EmptyString "HTTP/1.1" status.

(** A request that reads status 404 on a fresh connection. *)
Lemma DoRun_gives_slot_back_after_404 :
  exists ns cc' evs,
    DoRun false ready_env "host:443" (MkHost 5) (fun _ => false) (answers 404)
      (fun c => c) false one_active
    = Some (ns, cc', evs) /\
    ActiveSockets cc' = ActiveSockets one_active /\
    (ns = [] \/ exists n, ns = [n]).
Proof.
  destruct (DoRun false ready_env "host:443" (MkHost 5) (fun _ => false)
              (answers 404) (fun c => c) false one_active)
    as [[[ns cc'] evs]|] eqn:Hrun; [|vm_compute in Hrun; discriminate].
  exists ns, cc', evs. split; [reflexivity|].
  destruct (DoRun_gives_slot_back false ready_env "host:443" (MkHost 5)
              (fun _ => false) (answers 404) (fun c => c) false one_active
              ns cc' evs (fun _ _ => eq_refl) (fun _ => eq_refl) Hrun)
    as (Ha & Hn & _).
  split; [exact Ha|exact Hn].
Defined.

(** A request that reads status 200 over the socket cached for its host:
    the socket goes back to the queue. *)
Lemma DoRun_caches_answered_only_200 :
  exists cc' evs k,
    DoRun false ready_env "host:443" (MkHost 0) (fun _ => false) (answers 200)
      (fun c => c) false one_and_one
    = Some ([NotifyResponse "pong" EmptyString], cc', evs) /\
    ConnList cc' (MkHost 0)
    = skipn k (ConnList one_and_one (MkHost 0)) ++ [MkSocket 3 true].
Proof.
  destruct (DoRun false ready_env "host:443" (MkHost 0) (fun _ => false)
              (answers 200) (fun c => c) false one_and_one)
    as [[[ns cc'] evs]|] eqn:Hrun; [|vm_compute in Hrun; discriminate].
  assert (Hns : ns = [NotifyResponse "pong" EmptyString])
    by (vm_compute in Hrun; injection Hrun as <- _ _; reflexivity).
  subst ns.
  destruct (DoRun_caches_answered_only false ready_env "host:443" (MkHost 0)
              (fun _ => false) (answers 200) (fun c => c) false one_and_one
              _ cc' evs (fun _ _ => eq_refl) (fun _ => eq_refl) Hrun)
    as (k & _ & s & e & cc1 & evs1 & r & h & f & code & Hc & _ & _ & _ & Hq).
  exists cc', evs, k. split; [reflexivity|].
  vm_compute in Hc. injection Hc as <- _ <- _. exact Hq.
Defined.

End Requests.
